(** * A shallow embedding of [parts.parts] and [products.products]

    Source: [com/Lib/site-packages/parts/parts.py] and
    [com/Lib/site-packages/products/products.py].

    Python integers are [Z]; a Python list (or any sized, sliceable
    sequence) is [list A]; a pull-only iterator is a finite [cursor] that
    either yields an element, stops ([StopIteration]) or raises.  The
    generator [parts] is modelled by its run: the parts it yields, in
    order, and how it ends ([None]: normal exhaustion, [Some e]: the
    exception [e] aborts it). *)

From Stdlib Require Import List ZArith Lia Bool Sorted.
Import ListNotations.
Open Scope Z_scope.

(** Exceptions raised by the two functions, one per message. *)
Inductive error : Type :=
| TypeError_number                (* 'number parameter must be an integer' *)
| TypeError_length                (* '... an integer or iterable of integers' *)
| TypeError_length_list           (* '... an integer or list of integers' *)
| TypeError_no_len_number         (* 'object must have length to determine part lengths ...' *)
| TypeError_no_len_both           (* 'object must have length to determine if number ...' *)
| TypeError_no_slices             (* 'object does not support retrieval of slices' *)
| ValueError_mismatch             (* 'number parameter does not match ...' *)
| ValueError_unsatisfiable        (* 'cannot retrieve N parts from object ...' *)
| ValueError_too_few              (* 'object has too few items ...' *)
| ValueError_too_many             (* 'object has too many items ...' *)
| ValueError_missing              (* 'missing number of parts parameter ...' *)
| GeneratorError                  (* an exception raised by a pull-only input *)
| TypeError_products_number       (* 'number of disjoint subsets must be an integer' *)
| ValueError_products_number.     (* '... must be a positive integer' *)

(** The Python values passed as [number] and [length]. *)
Inductive number_arg : Type :=
| NInt (n : Z)     (* an [int] *)
| NOther.          (* anything that is not an [int], e.g. [1.2] *)

Inductive entry : Type :=
| EInt (l : Z)
| EOther.

Inductive length_arg : Type :=
| LInt (l : Z)                                (* an [int] *)
| LIterable (is_list : bool) (es : list entry) (* an iterable; [is_list]: a [list] *)
| LOther.                                     (* neither an [int] nor iterable *)

Section Parts.
Context {A : Type}.

(** ** Python sequences *)

Definition len (xs : list A) : Z := Z.of_nat (List.length xs).

(** Normalisation of a slice bound against a sequence of length [n]. *)
Definition norm_index (n i : Z) : Z :=
  if i <? 0 then Z.max 0 (i + n) else Z.min i n.

(** [xs[lo:hi]] *)
Definition py_slice (xs : list A) (lo hi : Z) : list A :=
  let a := norm_index (len xs) lo in
  let b := norm_index (len xs) hi in
  firstn (Z.to_nat (b - a)) (skipn (Z.to_nat a) xs).

(** ** Pull-only inputs *)

(** A one-shot iterator: each [next] yields an element, signals
    [StopIteration], or raises. *)
Inductive cursor : Type :=
| CStop
| CRaise
| CYield (x : A) (rest : cursor).

(** [next(c)]: [inl e] raises [e], [inr None] is [StopIteration],
    [inr (Some (x, rest))] yields [x]. *)
Definition next (c : cursor) : error + option (A * cursor) :=
  match c with
  | CStop => inr None
  | CRaise => inl GeneratorError
  | CYield x rest => inr (Some (x, rest))
  end.

(** [itertools.chain(xs, c)] *)
Fixpoint chain (xs : list A) (c : cursor) : cursor :=
  match xs with
  | [] => c
  | x :: xs' => CYield x (chain xs' c)
  end.

(** Everything a consumer obtains by draining a cursor: the elements, and
    whether the draining ends by an exception. *)
Fixpoint drain (c : cursor) : list A * bool :=
  match c with
  | CStop => ([], false)
  | CRaise => ([], true)
  | CYield x rest => let (ys, raised) := drain rest in (x :: ys, raised)
  end.

(** [_empty] on a pull-only input (the [except TypeError] branch):
    [len(xs)] fails, so one element is pulled and pushed back. *)
Definition empty_pull (xs : cursor) : error + (cursor * bool) :=
  match next xs with
  | inl e => inl e                                 (* raise e from None *)
  | inr None => inr (xs, true)                     (* StopIteration *)
  | inr (Some (x, rest)) => inr (chain [x] rest, false)
  end.

(** [islice(c, 0, n)] drained by the consumer: at most [n] elements. *)
Fixpoint take_cursor (n : nat) (c : cursor) : error + (list A * cursor) :=
  match n with
  | O => inr ([], c)
  | S n' =>
      match next c with
      | inl e => inl e
      | inr None => inr ([], c)
      | inr (Some (x, rest)) =>
          match take_cursor n' rest with
          | inl e => inl e
          | inr (ys, c') => inr (x :: ys, c')
          end
      end
  end.

Fixpoint cursor_size (c : cursor) : nat :=
  match c with
  | CYield _ rest => S (cursor_size rest)
  | _ => O
  end.

(** The input [xs] of [parts]: a sized, sliceable sequence, or a
    pull-only iterator. *)
Inductive input : Type :=
| Sized (xs : list A)
| Pull (c : cursor).

(** A generator run: the parts yielded, in order, and how it ends. *)
Definition run : Type := (list (list A) * option error)%type.

Definition cons_part (p : list A) (r : run) : run := (p :: fst r, snd r).

End Parts.

Arguments cursor : clear implicits.
Arguments input : clear implicits.
Arguments run : clear implicits.

(** [sys.maxsize] on a 64-bit build: the largest stop [islice] accepts. *)
Definition maxsize : Z := 2 ^ 63 - 1.

Section Modes.
Context {A : Type}.
Implicit Types (xs : list A) (c : cursor A).

(** [_slice(xs, lower, upper)] on a sized sequence:
    [xs[lower: min(len(xs), upper)]]. *)
Definition slice_sized xs (lower upper : Z) : list A :=
  py_slice xs lower (Z.min (len xs) upper).

(** ** Mode A: [number] only (lines 338-359).
    [mode_a_loop] is the [while] loop; [number] decreases by one in each
    round, so [Z.to_nat number] rounds are all it can run. *)
Fixpoint mode_a_loop (fuel : nat) xs (len_ number i length : Z) : list (list A) :=
  match fuel with
  | O => []
  | S fuel' =>
      if (0 <? number) && (i <? len_) then
        let number := number - 1 in
        if number =? 0 then [py_slice xs i len_]          (* yield xs[i:]; break *)
        else py_slice xs i (i + length)
             :: mode_a_loop fuel' xs len_ number (i + length)
                  ((len_ - (i + length)) / number)
      else []
  end.

Definition mode_a xs (number : Z) : list (list A) :=
  let len_ := len xs in
  let number := Z.max 1 (Z.min len_ number) in
  mode_a_loop (Z.to_nat number) xs len_ number 0 (len_ / number).

(** ** Mode B: a single [int] length (lines 362-374). *)

(** On a sized sequence: the [while True] loop stops at the first empty
    slice, which [length xs + 1] rounds always reach. *)
Fixpoint mode_b_sized (fuel : nat) xs (length index : Z) : list (list A) :=
  match fuel with
  | O => []
  | S fuel' =>
      let part := slice_sized xs index (index + length) in
      match part with
      | [] => []
      | _ => part :: mode_b_sized fuel' xs length (index + length)
      end
  end.

(** On a pull-only input each part is [islice(xs, 0, length)] over the
    shared cursor; it is probed by [_empty], then drained by the consumer
    before the next part is requested (as in [list(map(list, parts(...)))]).
    [islice] refuses a stop above [sys.maxsize] (a [ValueError] that
    [_slice] turns into a [TypeError]) before pulling anything.
    Every round consumes an element, so [cursor_size c + 1] rounds suffice. *)
Fixpoint mode_b_pull (fuel : nat) c (length : Z) : run A :=
  match fuel with
  | O => ([], None)
  | S fuel' =>
      if maxsize <? length then ([], Some TypeError_no_slices) else
      match empty_pull c with
      | inl e => ([], Some e)
      | inr (_, true) => ([], None)
      | inr (c', false) =>
          match take_cursor (Z.to_nat length) c' with
          | inl e => ([], Some e)
          | inr (part, rest) => cons_part part (mode_b_pull fuel' rest length)
          end
      end
  end.

Definition mode_b (xs : input A) (length : Z) : run A :=
  let length := Z.max 1 length in
  match xs with
  | Sized ys => (mode_b_sized (S (List.length ys)) ys length 0, None)
  | Pull c => mode_b_pull (S (cursor_size c)) c length
  end.

(** ** Mode C: an iterable of lengths only (lines 376-400). *)

Fixpoint mode_c_sized xs (index : Z) (lengths : list entry) : run A :=
  match lengths with
  | [] => ([], None)                                    (* StopIteration *)
  | EOther :: _ => ([], Some TypeError_length)
  | EInt length :: lengths' =>
      let part := slice_sized xs index (index + length) in
      match part with
      | [] => ([], Some ValueError_too_few)
      | _ => cons_part part (mode_c_sized xs (index + length) lengths')
      end
  end.

(** On a pull-only input, [islice(xs, 0, length)] refuses a negative
    [length] and one above [sys.maxsize] (a [ValueError] that [_slice]
    turns into a [TypeError]), and an [islice] of length 0 is empty without
    pulling anything. *)
Fixpoint mode_c_pull c (lengths : list entry) : run A :=
  match lengths with
  | [] => ([], None)
  | EOther :: _ => ([], Some TypeError_length)
  | EInt length :: lengths' =>
      if (length <? 0) || (maxsize <? length) then ([], Some TypeError_no_slices)
      else if length =? 0 then ([], Some ValueError_too_few)
      else
        match empty_pull c with
        | inl e => ([], Some e)
        | inr (_, true) => ([], Some ValueError_too_few)
        | inr (c', false) =>
            match take_cursor (Z.to_nat length) c' with
            | inl e => ([], Some e)
            | inr (part, rest) => cons_part part (mode_c_pull rest lengths')
            end
        end
  end.

Definition mode_c (xs : input A) (lengths : list entry) : run A :=
  match xs with
  | Sized ys => mode_c_sized ys 0 lengths
  | Pull c => mode_c_pull c lengths
  end.

(** ** Mode D: [number] and [length] together (lines 402-452). *)

(** [range(start, stop, step)] for [step >= 1]. *)
Fixpoint range_step (fuel : nat) (start stop step : Z) : list Z :=
  match fuel with
  | O => []
  | S fuel' =>
      if start <? stop then start :: range_step fuel' (start + step) stop step
      else []
  end.

Definition mode_d_int xs (number length : Z) : run A :=
  let len_ := len xs in
  let length := Z.max 1 length in
  if (len_ >? length * number) || (len_ <=? length * (number - 1))
  then ([], Some ValueError_unsatisfiable)
  else (map (fun i => py_slice xs i (i + length))
            (range_step (Z.to_nat len_) 0 len_ length), None).

Fixpoint sum (ls : list Z) : Z :=
  match ls with
  | [] => 0
  | l :: ls' => l + sum ls'
  end.

Fixpoint slices_by xs (index : Z) (lengths : list Z) : list (list A) :=
  match lengths with
  | [] => []
  | length :: lengths' =>
      slice_sized xs index (index + length) :: slices_by xs (index + length) lengths'
  end.

Definition entry_int (e : entry) : option Z :=
  match e with EInt l => Some l | EOther => None end.

(** [all(isinstance(l, int) for l in length)], returning the integers. *)
Fixpoint all_ints (es : list entry) : option (list Z) :=
  match es with
  | [] => Some []
  | EInt l :: es' => option_map (cons l) (all_ints es')
  | EOther :: _ => None
  end.

Definition mode_d_list xs (number : Z) (length : list Z) : run A :=
  let len_ := len xs in
  if negb (Z.of_nat (List.length length) =? number) then ([], Some ValueError_mismatch)
  else if len_ <=? sum (removelast length) then ([], Some ValueError_too_few)
  else if len_ >? sum length then ([], Some ValueError_too_many)
  else (slices_by xs 0 length, None).

Definition mode_d (xs : input A) (number : Z) (length : length_arg) : run A :=
  match xs with
  | Pull _ => ([], Some TypeError_no_len_both)
  | Sized ys =>
      match length with
      | LInt l => mode_d_int ys number l
      | LIterable true es =>
          match all_ints es with
          | Some ls => mode_d_list ys number ls
          | None => ([], Some TypeError_length_list)
          end
      | _ => ([], Some TypeError_length_list)
      end
  end.

(** ** [parts] *)
Definition parts (xs : input A) (number : option number_arg)
    (length : option length_arg) : run A :=
  match number, length with
  | Some NOther, _ => ([], Some TypeError_number)
  | _, Some LOther => ([], Some TypeError_length)
  | Some (NInt n), None =>
      match xs with
      | Sized ys => (mode_a ys n, None)
      | Pull _ => ([], Some TypeError_no_len_number)
      end
  | None, Some (LInt l) => mode_b xs l
  | None, Some (LIterable _ es) => mode_c xs es
  | Some (NInt n), Some l => mode_d xs n l
  | None, None => ([], Some ValueError_missing)
  end.

End Modes.

(** ** [products]

    The factors are Python collections, given in their iteration order; a
    tuple is a [list A].  The check that every factor is a [Collection]
    (line 116) holds by typing. *)
Section Products.
Context {A : Type}.

(** [itertools.product] over the factors [fs], in its lexicographic order. *)
Fixpoint product (fs : list (list A)) : list (list A) :=
  match fs with
  | [] => [[]]
  | f :: fs' => flat_map (fun a => map (cons a) (product fs')) f
  end.

(** The [for (i, a) in enumerate(factors)] loop of lines 138-142: [Some]
    [(i + 1)] when it breaks at [i]. *)
Fixpoint split_index (fs : list (list A)) (number_ number : Z) (i : nat) : option nat :=
  match fs with
  | [] => None
  | a :: fs' =>
      let number_ := number_ * len a in
      if number_ >=? number then Some (S i) else split_index fs' number_ number (S i)
  end.

Definition prefix_index (factors : list (list A)) (number : Z) : nat :=
  match split_index factors 1 number 0 with
  | Some k => Nat.min (List.length factors) k
  | None => List.length factors
  end.

(** [generator(prefix)] of lines 149-152, run to the end. *)
Definition generator (suffix : list (list A)) (prefix : list (list A)) : list (list A) :=
  flat_map (fun p => map (fun s => p ++ s) (product suffix)) prefix.

Definition products (factors : list (list A)) (number : option number_arg)
    : error + list (list (list A)) :=
  match number with
  | Some NOther => inl TypeError_products_number
  | Some (NInt n) =>
      if n <? 1 then inl ValueError_products_number
      else if n =? 1 then inr [product factors]
      else
        let index := prefix_index factors n in
        let prefixes := parts (Sized (product (firstn index factors))) (Some (NInt n)) None in
        match snd prefixes with
        | Some e => inl e
        | None => inr (map (generator (skipn index factors)) (fst prefixes))
        end
  | None => inr [product factors]
  end.

(** The product of the factor sizes. *)
Definition total_size (factors : list (list A)) : Z :=
  fold_right (fun f acc => len f * acc) 1 factors.

(** No tuple lies in two different subsets. *)
Definition pairwise_disjoint (ss : list (list (list A))) : Prop :=
  forall (i j : nat) s s' t, i <> j -> nth_error ss i = Some s -> nth_error ss j = Some s' ->
  In t s -> ~ In t s'.

End Products.

(** Doctests of [products]. *)
Example products_doc :
  products [[1; 2]; [10; 20]] (Some (NInt 2)) = inr [[[1; 10]; [1; 20]]; [[2; 10]; [2; 20]]] /\
  (match products [[1; 2]; [10; 20]] (Some (NInt 10)) with
   | inr ss => List.length ss | inl _ => O end) = 4%nat /\
  products (@nil (list Z)) None = inr [[[]]] /\
  products [[1; 2]] None = inr [[[1]; [2]]] /\
  products [[1; 2]] (Some (NInt 0)) = inl ValueError_products_number /\
  (match products [[1; 2]; [3; 4]; [5; 6]; [1; 2]; [3; 4]; [5; 6]] (Some (NInt 5)) with
   | inr ss => List.length ss | inl _ => O end) = 5%nat.
Proof. repeat split; reflexivity. Qed.

(** Doctests of [parts]. *)
Definition l7 : list Z := [1; 2; 3; 4; 5; 6; 7].

Example parts_doc_number :
  map (fun k => fst (parts (Sized l7) (Some (NInt k)) None)) [2; 4; 5] =
  [ [[1; 2; 3]; [4; 5; 6; 7]];
    [[1]; [2; 3]; [4; 5]; [6; 7]];
    [[1]; [2]; [3]; [4; 5]; [6; 7]] ].
Proof. reflexivity. Qed.

Example parts_doc_length :
  parts (Sized l7) None (Some (LInt 3)) = ([[1; 2; 3]; [4; 5; 6]; [7]], None).
Proof. reflexivity. Qed.

Example parts_doc_length_pull :
  parts (Pull (chain l7 CStop)) None (Some (LInt 4)) = ([[1; 2; 3; 4]; [5; 6; 7]], None).
Proof. reflexivity. Qed.

Example parts_doc_lengths :
  parts (Sized [1; 2; 3; 4; 5; 6]) None (Some (LIterable true [EInt 1; EInt 2; EInt 3]))
  = ([[1]; [2; 3]; [4; 5; 6]], None).
Proof. reflexivity. Qed.

Example parts_doc_errors :
  snd (parts (Sized l7) (Some (NInt 3)) (Some (LInt 2))) = Some ValueError_unsatisfiable /\
  parts (Sized [1; 2; 3]) (Some (NInt 2)) (Some (LIterable true [EInt 1; EInt 2]))
    = ([[1]; [2; 3]], None) /\
  snd (parts (Sized [1; 2; 3]) (Some (NInt 3)) (Some (LIterable true [EInt 1; EInt 2; EInt 3])))
    = Some ValueError_too_few /\
  snd (parts (Sized [1; 2; 3]) (Some (NInt 2)) (Some (LIterable true [EInt 1; EInt 1])))
    = Some ValueError_too_many /\
  parts (Sized [1; 2; 3]) None (Some (LIterable true [EInt 4])) = ([[1; 2; 3]], None) /\
  parts (Sized [1; 2; 3]) None (Some (LIterable true [EInt 1; EInt 1; EInt 1; EInt 1]))
    = ([[1]; [2]; [3]], Some ValueError_too_few) /\
  snd (parts (Sized [1; 2; 3]) (Some (NInt 1)) (Some (LIterable true [EOther])))
    = Some TypeError_length_list /\
  snd (parts (Pull (chain l7 CStop)) (Some (NInt 1)) None) = Some TypeError_no_len_number.
Proof. repeat split; reflexivity. Qed.

(** ** Facts about Python slices *)
Section SliceFacts.
Context {A : Type}.
Implicit Types (xs : list A).

Lemma len_nonneg xs : 0 <= len xs.
Proof. unfold len; lia. Qed.

Lemma len_firstn (n : nat) xs : len (firstn n xs) = Z.min (Z.of_nat n) (len xs).
Proof. unfold len; rewrite length_firstn; lia. Qed.

Lemma len_skipn (n : nat) xs : len (skipn n xs) = len xs - Z.min (Z.of_nat n) (len xs).
Proof. unfold len; rewrite length_skipn; lia. Qed.

(** Within bounds, [xs[i:j]] is the plain sub-list. *)
Lemma py_slice_in_range xs (i j : Z) :
  0 <= i -> i <= j -> j <= len xs ->
  py_slice xs i j = firstn (Z.to_nat (j - i)) (skipn (Z.to_nat i) xs).
Proof.
  intros Hi Hij Hj. unfold py_slice, norm_index.
  destruct (i <? 0) eqn:E1; [lia|]. destruct (j <? 0) eqn:E2; [lia|].
  rewrite (Z.min_l i) by lia. rewrite (Z.min_l j) by lia. reflexivity.
Qed.

Lemma len_py_slice_in_range xs (i j : Z) :
  0 <= i -> i <= j -> j <= len xs -> len (py_slice xs i j) = j - i.
Proof.
  intros. rewrite py_slice_in_range by lia.
  rewrite len_firstn, len_skipn. lia.
Qed.

(** Consecutive slices glue together. *)
Lemma py_slice_app_skipn xs (i j : Z) :
  0 <= i -> i <= j -> j <= len xs ->
  py_slice xs i j ++ skipn (Z.to_nat j) xs = skipn (Z.to_nat i) xs.
Proof.
  intros. rewrite py_slice_in_range by lia.
  replace (Z.to_nat j) with (Z.to_nat (j - i) + Z.to_nat i)%nat by lia.
  rewrite <- skipn_skipn. apply firstn_skipn.
Qed.

Lemma py_slice_to_end xs (i : Z) :
  0 <= i -> i <= len xs -> py_slice xs i (len xs) = skipn (Z.to_nat i) xs.
Proof.
  intros. rewrite py_slice_in_range by lia.
  apply firstn_all2. rewrite length_skipn. unfold len in *. lia.
Qed.

Lemma skipn_len xs : skipn (Z.to_nat (len xs)) xs = [].
Proof. apply skipn_all2. unfold len. lia. Qed.

Lemma firstn_eq_min (n m : nat) (l : list A) :
  Nat.min n (List.length l) = Nat.min m (List.length l) -> firstn n l = firstn m l.
Proof.
  revert n m; induction l as [|x l IH]; intros n m H; [now rewrite !firstn_nil|].
  destruct n, m; simpl in *; try lia; try reflexivity.
  f_equal. apply IH. lia.
Qed.

Lemma firstn_add (n m : nat) (l : list A) :
  firstn n l ++ firstn m (skipn n l) = firstn (n + m) l.
Proof.
  revert l; induction n as [|n IH]; intros l; [reflexivity|].
  destruct l as [|x l]; simpl; [now rewrite firstn_nil|]. f_equal. apply IH.
Qed.

(** For non-negative bounds, [xs[i:j]] is [firstn (j - i) (skipn i xs)],
    whatever the length of [xs]. *)
Lemma py_slice_nonneg xs (i j : Z) :
  0 <= i -> 0 <= j ->
  py_slice xs i j = firstn (Z.to_nat (j - i)) (skipn (Z.to_nat i) xs).
Proof.
  intros Hi Hj. unfold py_slice, norm_index.
  destruct (i <? 0) eqn:E1; [lia|]. destruct (j <? 0) eqn:E2; [lia|].
  destruct (Z.le_gt_cases i (len xs)) as [Hle|Hgt].
  - rewrite (Z.min_l i) by lia. apply firstn_eq_min.
    rewrite length_skipn. unfold len in *. lia.
  - rewrite (Z.min_r i) by lia. rewrite skipn_len.
    rewrite skipn_all2 by (unfold len in *; lia).
    now rewrite !firstn_nil.
Qed.

Lemma slice_sized_nonneg xs (i l : Z) :
  0 <= i -> 0 <= l ->
  slice_sized xs i (i + l) = firstn (Z.to_nat l) (skipn (Z.to_nat i) xs).
Proof.
  intros Hi Hl. unfold slice_sized.
  rewrite py_slice_nonneg by (pose proof (len_nonneg xs); lia).
  destruct (Z.le_gt_cases i (len xs)) as [Hle|Hgt].
  - apply firstn_eq_min. rewrite length_skipn. unfold len in *. lia.
  - rewrite skipn_all2 by (unfold len in *; lia).
    now rewrite !firstn_nil.
Qed.

Lemma py_slice_step xs (i l : Z) :
  0 <= i -> 0 <= l ->
  py_slice xs i (i + l) = firstn (Z.to_nat l) (skipn (Z.to_nat i) xs).
Proof. intros. rewrite py_slice_nonneg by lia. f_equal. lia. Qed.

End SliceFacts.

Lemma sum_nonneg (ls : list Z) : Forall (fun l => 0 <= l) ls -> 0 <= sum ls.
Proof. induction 1; simpl; lia. Qed.

Lemma removelast_cons {B} (a : B) (l : list B) :
  l <> [] -> removelast (a :: l) = a :: removelast l.
Proof. destruct l; [congruence|reflexivity]. Qed.

Lemma Forall_removelast {B} (P : B -> Prop) (l : list B) :
  Forall P l -> Forall P (removelast l).
Proof.
  induction 1 as [|x l Hx Hl IH]; [constructor|].
  destruct l; simpl; [constructor|]. constructor; auto.
Qed.

(** ** Mode A: the balanced loop *)
Section ModeA.
Context {A : Type}.
Implicit Types (xs : list A).

Lemma div_bounds (R c : Z) : 0 < c -> c * (R / c) <= R < c * (R / c) + c.
Proof.
  intros Hc. pose proof (Z.mul_div_le R c Hc). pose proof (Z.mul_succ_div_gt R c Hc).
  unfold Z.succ in *. lia.
Qed.

(** The loop invariant: with [c] parts left from position [i], and the
    remaining [len xs - i] elements between [q * c] and [(q + 1) * c], the
    loop yields [c] parts, of [q] or [q + 1] elements each, in
    non-decreasing order of size, covering [xs[i:]]. *)
Lemma mode_a_loop_spec xs (f : nat) : forall (c i q : Z),
  Z.of_nat f = c -> 0 <= i -> 1 <= q ->
  q * c <= len xs - i <= (q + 1) * c ->
  let ps := mode_a_loop f xs (len xs) c i ((len xs - i) / c) in
  List.length ps = f /\ concat ps = skipn (Z.to_nat i) xs /\
  Forall (fun p => q <= len p <= q + 1) ps /\
  StronglySorted (fun p p' => len p <= len p') ps.
Proof.
  induction f as [|f IH]; intros c i q Hf Hi Hq HR.
  - subst c. simpl. repeat split; [|constructor..].
    symmetry. apply skipn_all2. unfold len in HR. lia.
  - cbn [mode_a_loop].
    assert (Hg : (0 <? c) && (i <? len xs) = true).
    { apply andb_true_intro; split; apply Z.ltb_lt; nia. }
    rewrite Hg. cbv zeta.
    destruct (Z.eqb_spec (c - 1) 0) as [E|E].
    + assert (f = 0%nat) by lia. subst f.
      rewrite py_slice_to_end by nia. cbn [concat List.length].
      rewrite app_nil_r. repeat split; [repeat constructor; rewrite len_skipn; lia
                                     | repeat constructor].
    + set (R := len xs - i). set (s := R / c).
      pose proof (div_bounds R c ltac:(lia)) as [Hs1 Hs2]. fold s in Hs1, Hs2.
      assert (Hqs : q <= s <= q + 1) by nia.
      assert (Hlen_part : len (py_slice xs i (i + s)) = s)
        by (rewrite len_py_slice_in_range by nia; lia).
      replace (len xs - (i + s)) with (R - s) by (unfold R; lia).
      assert (HR1 : q * (c - 1) <= R - s <= (q + 1) * (c - 1)).
      { destruct (Z.eq_dec s (q + 1)) as [->|Hne]; [nia|].
        assert (s = q) as -> by lia. nia. }
      set (q' := (R - s) / (c - 1)).
      pose proof (div_bounds (R - s) (c - 1) ltac:(lia)) as [Ht1 Ht2]. fold q' in Ht1, Ht2.
      assert (Hsq' : s <= q') by nia.
      destruct (IH (c - 1) (i + s) q ltac:(lia) ltac:(nia) Hq
                  ltac:(replace (len xs - (i + s)) with (R - s) by (unfold R; lia); exact HR1))
        as (Hl & Hc & Hb & _).
      destruct (IH (c - 1) (i + s) q' ltac:(lia) ltac:(nia) ltac:(lia)
                  ltac:(replace (len xs - (i + s)) with (R - s) by (unfold R; lia); nia))
        as (_ & _ & Hb' & Hsort).
      replace (len xs - (i + s)) with (R - s) in Hl, Hc, Hb, Hb', Hsort by (unfold R; lia).
      fold q' in Hl, Hc, Hb, Hb', Hsort.
      repeat split.
      * cbn [List.length]. now rewrite Hl.
      * cbn [concat]. rewrite Hc. apply py_slice_app_skipn; nia.
      * constructor; [lia | exact Hb].
      * constructor; [exact Hsort|].
        eapply Forall_impl; [|exact Hb']. intros p Hp. simpl in Hp. lia.
Qed.

End ModeA.

Section ModeAParts.
Context {A : Type}.
Implicit Types (xs : list A).

Lemma strongly_sorted_nth {B} (R : B -> B -> Prop) (l : list B) :
  StronglySorted R l ->
  forall (i j : nat) a b, (i < j)%nat -> nth_error l i = Some a -> nth_error l j = Some b -> R a b.
Proof.
  induction l as [|x l IH]; intros Hs i j a b Hij Hi Hj; [destruct i; discriminate|].
  apply StronglySorted_inv in Hs as [Hs Hall].
  destruct i as [|i], j as [|j]; simpl in Hi, Hj; try lia.
  - injection Hi as <-. rewrite Forall_forall in Hall. apply Hall.
    eapply nth_error_In; eauto.
  - apply (IH Hs i j); auto. lia.
Qed.

(** Mode A on a non-empty sequence, as a whole. *)
Lemma mode_a_spec xs (k : Z) :
  xs <> [] ->
  let m := Z.max 1 (Z.min (len xs) k) in
  let ps := mode_a xs k in
  Z.of_nat (List.length ps) = m /\ concat ps = xs /\
  Forall (fun p => len xs / m <= len p <= len xs / m + 1) ps /\
  StronglySorted (fun p p' => len p <= len p') ps /\ 1 <= len xs / m.
Proof.
  intros Hne. cbv zeta.
  assert (Hlen : 1 <= len xs) by (destruct xs; [congruence|unfold len; simpl; lia]).
  assert (Hm : 1 <= Z.max 1 (Z.min (len xs) k) <= len xs) by lia.
  set (m := Z.max 1 (Z.min (len xs) k)) in *.
  pose proof (div_bounds (len xs) m ltac:(lia)) as [H1 H2].
  assert (Hq : 1 <= len xs / m) by nia.
  destruct (mode_a_loop_spec xs (Z.to_nat m) m 0 (len xs / m) ltac:(lia) ltac:(lia) Hq
              ltac:(rewrite Z.sub_0_r; nia)) as (Hl & Hc & Hb & Hs).
  rewrite Z.sub_0_r in Hl, Hc, Hb, Hs.
  unfold mode_a. fold m. repeat split; auto; lia.
Qed.

Lemma mode_a_nil (k : Z) : mode_a (@nil A) k = [].
Proof.
  unfold mode_a. replace (Z.max 1 (Z.min (len (@nil A)) k)) with 1
    by (unfold len; simpl; lia).
  reflexivity.
Qed.

Lemma mode_a_concat xs (k : Z) : concat (mode_a xs k) = xs.
Proof.
  destruct xs as [|x xs]; [now rewrite mode_a_nil|].
  apply mode_a_spec. discriminate.
Qed.

End ModeAParts.

(** ** Modes B, C and D on sized sequences *)
Section SizedModes.
Context {A : Type}.
Implicit Types (xs : list A).

Lemma firstn_skipn_glue xs (i l : Z) :
  0 <= i -> 0 <= l ->
  firstn (Z.to_nat l) (skipn (Z.to_nat i) xs) ++ skipn (Z.to_nat (i + l)) xs
  = skipn (Z.to_nat i) xs.
Proof.
  intros. replace (Z.to_nat (i + l)) with (Z.to_nat l + Z.to_nat i)%nat by lia.
  rewrite <- skipn_skipn. apply firstn_skipn.
Qed.

Lemma len_firstn_skipn xs (i l : Z) :
  0 <= i -> 0 <= l ->
  len (firstn (Z.to_nat l) (skipn (Z.to_nat i) xs)) = Z.min l (Z.max 0 (len xs - i)).
Proof. intros. rewrite len_firstn, len_skipn. lia. Qed.

Lemma firstn_skipn_nil xs (i l : Z) :
  0 <= i -> 1 <= l ->
  firstn (Z.to_nat l) (skipn (Z.to_nat i) xs) = [] -> len xs <= i.
Proof.
  intros Hi Hl E. apply (f_equal len) in E.
  rewrite len_firstn_skipn in E by lia. unfold len at 2 in E. simpl in E. lia.
Qed.

(** Mode B covers the sequence from [index] on. *)
Lemma mode_b_sized_concat xs (l : Z) (f : nat) : forall index,
  1 <= l -> 0 <= index -> len xs - index < Z.of_nat f ->
  concat (mode_b_sized f xs l index) = skipn (Z.to_nat index) xs.
Proof.
  induction f as [|f IH]; intros index Hl Hi Hf.
  - simpl. symmetry. apply skipn_all2. unfold len in *. lia.
  - cbn [mode_b_sized]. rewrite slice_sized_nonneg by lia.
    destruct (firstn (Z.to_nat l) (skipn (Z.to_nat index) xs)) as [|a t] eqn:E.
    + symmetry. apply skipn_all2. apply firstn_skipn_nil in E; [|lia..].
      unfold len in E. lia.
    + cbn [concat]. rewrite <- E, IH by lia. apply firstn_skipn_glue; lia.
Qed.

(** Mode D with an [int] length, once the feasibility check passed: the
    [range(0, len_, length)] loop from position [i] when [m] parts remain. *)
Lemma range_slices xs (l : Z) (m : nat) : forall (f : nat) (i : Z),
  1 <= l -> 0 <= i -> (m <= f)%nat ->
  (Z.of_nat m - 1) * l < len xs - i <= Z.of_nat m * l ->
  let ps := map (fun i => py_slice xs i (i + l)) (range_step f i (len xs) l) in
  List.length ps = m /\ concat ps = skipn (Z.to_nat i) xs /\
  (forall j p, (S j < m)%nat -> nth_error ps j = Some p -> len p = l) /\
  (forall p, nth_error ps (m - 1) = Some p -> len p = len xs - i - (Z.of_nat m - 1) * l).
Proof.
  induction m as [|m IH]; intros f i Hl Hi Hf Hm; cbv zeta.
  - assert (Hrs : range_step f i (len xs) l = []).
    { destruct f; simpl; [reflexivity|]. destruct (Z.ltb_spec i (len xs)); [lia|reflexivity]. }
    rewrite Hrs. simpl. repeat split.
    + symmetry. apply skipn_all2. unfold len in *. lia.
    + intros j p H. lia.
    + intros p H. discriminate.
  - destruct f as [|f]; [lia|]. cbn [range_step].
    destruct (Z.ltb_spec i (len xs)) as [Hlt|Hge]; [|nia].
    cbn [map]. rewrite py_slice_step by lia.
    destruct (IH f (i + l) Hl ltac:(lia) ltac:(lia) ltac:(nia)) as (Hlen & Hc & Hmid & Hlast).
    repeat split.
    + cbn [List.length]. now rewrite Hlen.
    + cbn [concat]. rewrite Hc. apply firstn_skipn_glue; lia.
    + intros [|j] p Hj Hp.
      * injection Hp as <-. rewrite len_firstn_skipn by lia. nia.
      * apply (Hmid j p); [lia|exact Hp].
    + intros p Hp. replace (S m - 1)%nat with m in Hp by lia.
      destruct m as [|m].
      * injection Hp as <-. rewrite len_firstn_skipn by lia. nia.
      * rewrite (Hlast p) by (simpl in Hp; replace (S m - 1)%nat with m by lia; exact Hp).
        nia.
Qed.

(** Mode D with a list of lengths, once the checks passed. *)
Lemma slices_by_spec xs (ls : list Z) : forall (index : Z),
  Forall (fun l => 0 <= l) ls -> 0 <= index ->
  index + sum (removelast ls) < len xs -> len xs <= index + sum ls ->
  let ps := slices_by xs index ls in
  List.length ps = List.length ls /\ concat ps = skipn (Z.to_nat index) xs /\
  (forall j p l, (S j < List.length ls)%nat -> nth_error ps j = Some p ->
                 nth_error ls j = Some l -> len p = l) /\
  (forall p, nth_error ps (List.length ls - 1) = Some p ->
             len p = len xs - index - sum (removelast ls)).
Proof.
  induction ls as [|l ls IH]; intros index Hpos Hi H1 H2; cbv zeta; [simpl in *; lia|].
  inversion Hpos as [|? ? Hl Hpos']; subst.
  cbn [slices_by]. rewrite slice_sized_nonneg by lia.
  destruct ls as [|l' ls'].
  - simpl in *. repeat split.
    + rewrite app_nil_r. apply firstn_all2. rewrite length_skipn. unfold len in *. lia.
    + intros j p l0 Hj. lia.
    + intros p Hp. injection Hp as <-. rewrite len_firstn_skipn by lia. lia.
  - rewrite removelast_cons in H1 by discriminate. cbn [sum] in H1, H2.
    pose proof (sum_nonneg _ (Forall_removelast _ _ Hpos')) as Hs.
    destruct (IH (index + l) Hpos' ltac:(lia) ltac:(lia) ltac:(cbn [sum] in *; lia))
      as (Hlen & Hc & Hmid & Hlast).
    repeat split.
    + cbn [List.length] in *. now rewrite Hlen.
    + cbn [concat]. rewrite Hc. apply firstn_skipn_glue; lia.
    + intros [|j] p l0 Hj Hp Hl0.
      * injection Hp as <-. injection Hl0 as <-. rewrite len_firstn_skipn by lia. lia.
      * apply (Hmid j p l0); [simpl in *; lia|exact Hp|exact Hl0].
    + intros p Hp. rewrite removelast_cons by discriminate. cbn [sum].
      cbn [List.length] in Hp. replace (S (S (List.length ls')) - 1)%nat
        with (S (List.length (l' :: ls') - 1)) in Hp by (simpl; lia).
      simpl nth_error in Hp. rewrite (Hlast p Hp). lia.
Qed.

(** Mode C on a sized sequence, for whole-number lengths: it fails with
    insufficient-elements exactly when some part probes empty, that is
    when an entry is 0 or the entries before the last one already reach
    the end; otherwise its parts are the first [sum ls] elements. *)
Lemma mode_c_sized_spec xs (ls : list Z) : forall (index : Z),
  Forall (fun l => 0 <= l) ls -> 0 <= index ->
  let r := mode_c_sized xs index (map EInt ls) in
  (snd r = Some ValueError_too_few <->
     In 0 ls \/ (ls <> [] /\ len xs - index <= sum (removelast ls))) /\
  (snd r = None \/ snd r = Some ValueError_too_few) /\
  (snd r = None -> concat (fst r) = firstn (Z.to_nat (sum ls)) (skipn (Z.to_nat index) xs)).
Proof.
  induction ls as [|l ls IH]; intros index Hpos Hi; cbv zeta.
  - simpl. split; [|split; [now left|reflexivity]].
    split; [discriminate|]. intros [[]|[[] _]]; reflexivity.
  - inversion Hpos as [|? ? Hl Hpos']; subst.
    pose proof (sum_nonneg _ (Forall_removelast _ _ Hpos')) as Hs.
    pose proof (sum_nonneg _ Hpos') as Hs'.
    cbn [map mode_c_sized]. rewrite slice_sized_nonneg by lia.
    destruct (firstn (Z.to_nat l) (skipn (Z.to_nat index) xs)) as [|a t] eqn:E.
    + cbn [snd]. split; [|split; [now right|discriminate]].
      split; [intros _|reflexivity].
      destruct (Z.eq_dec l 0) as [->|Hl0]; [left; now left|right].
      apply firstn_skipn_nil in E; [|lia..]. split; [discriminate|].
      destruct ls as [|l' ls']; [simpl; lia|].
      rewrite removelast_cons by discriminate. cbn [sum]. lia.
    + assert (Hl1 : 1 <= l) by (destruct (Z.eq_dec l 0) as [->|]; [discriminate|lia]).
      assert (Hin : index < len xs).
      { destruct (Z.lt_ge_cases index (len xs)) as [|Hge]; [assumption|].
        rewrite skipn_all2 in E by (unfold len in Hge; lia). now rewrite firstn_nil in E. }
      destruct (IH (index + l) Hpos' ltac:(lia)) as (Hiff & Hout & Hcat).
      unfold cons_part; cbn [fst snd]. repeat split.
      * intros Hr. apply Hiff in Hr as [Hr|[Hne Hr]]; [left; now right|right].
        split; [discriminate|]. rewrite removelast_cons by exact Hne. cbn [sum]. lia.
      * intros [[Hr|Hr]|[_ Hr]]; apply Hiff; [lia|now left|].
        destruct ls as [|l' ls']; [simpl in Hr; lia|].
        right. split; [discriminate|].
        rewrite removelast_cons in Hr by discriminate. cbn [sum] in Hr. lia.
      * exact Hout.
      * intros Hr. cbn [concat]. rewrite <- E, (Hcat Hr). cbn [sum].
        replace (Z.to_nat (index + l)) with (Z.to_nat l + Z.to_nat index)%nat by lia.
        rewrite <- skipn_skipn, firstn_add. f_equal. lia.
Qed.

End SizedModes.

(** ** [products] *)
Section ProductFacts.
Context {A : Type}.
Implicit Types (fs : list (list A)).

Lemma flat_map_map_cons (a : A) (g : list A -> list (list A)) (l : list (list A)) :
  flat_map g (map (cons a) l) = flat_map (fun p => g (a :: p)) l.
Proof. induction l; simpl; congruence. Qed.

Lemma flat_map_flat_map {B C D} (g : C -> list D) (h : B -> list C) (l : list B) :
  flat_map g (flat_map h l) = flat_map (fun x => flat_map g (h x)) l.
Proof. induction l as [|x l IH]; simpl; [reflexivity|]. now rewrite flat_map_app, IH. Qed.

Lemma map_flat_map {B C D} (g : C -> D) (h : B -> list C) (l : list B) :
  map g (flat_map h l) = flat_map (fun x => map g (h x)) l.
Proof. induction l as [|x l IH]; simpl; [reflexivity|]. now rewrite map_app, IH. Qed.

(** [itertools.product] of a concatenation of factor lists: the prefix
    product, each tuple extended by every tuple of the suffix product. *)
Lemma product_app fs1 fs2 :
  product (fs1 ++ fs2) = generator fs2 (product fs1).
Proof.
  unfold generator. induction fs1 as [|f fs1 IH]; simpl.
  - rewrite app_nil_r. symmetry. apply map_id.
  - rewrite IH, flat_map_flat_map. apply flat_map_ext. intros a.
    rewrite map_flat_map, flat_map_map_cons. apply flat_map_ext. intros p.
    rewrite map_map. reflexivity.
Qed.

Lemma generator_concat (suffix : list (list A)) (prefixes : list (list (list A))) :
  concat (map (generator suffix) prefixes) = generator suffix (concat prefixes).
Proof.
  unfold generator. induction prefixes as [|p ps IH]; simpl; [reflexivity|].
  now rewrite flat_map_app, IH.
Qed.

Lemma length_flat_map_const {B C} (g : B -> list C) (k : nat) (l : list B) :
  (forall x, List.length (g x) = k) -> List.length (flat_map g l) = (List.length l * k)%nat.
Proof.
  intros Hg. induction l as [|x l IH]; simpl; [reflexivity|].
  rewrite length_app, Hg, IH. reflexivity.
Qed.

Lemma len_product fs : len (product fs) = total_size fs.
Proof.
  unfold len. induction fs as [|f fs IH]; simpl; [reflexivity|].
  rewrite (length_flat_map_const _ (List.length (product fs))) by
    (intros; apply length_map).
  rewrite Nat2Z.inj_mul, IH. reflexivity.
Qed.

Lemma NoDup_map_cons (a : A) (l : list (list A)) : NoDup l -> NoDup (map (cons a) l).
Proof.
  induction 1 as [|p l Hp Hl IH]; simpl; constructor; [|exact IH].
  intros Hin. apply in_map_iff in Hin as (p' & Heq & Hin). injection Heq as ->. auto.
Qed.

Lemma NoDup_product fs : Forall (@NoDup A) fs -> NoDup (product fs).
Proof.
  induction 1 as [|f fs Hf Hfs IH]; simpl; [repeat constructor; auto|].
  induction Hf as [|a f Ha Hf IHf]; simpl; [constructor|].
  apply NoDup_app; [now apply NoDup_map_cons|exact IHf|].
  intros t Ht1 Ht2. apply in_map_iff in Ht1 as (p & <- & _).
  apply in_flat_map in Ht2 as (b & Hb & Ht2). apply in_map_iff in Ht2 as (p' & Heq & _).
  injection Heq as -> _. contradiction.
Qed.

Lemma NoDup_app_disjoint {B} (l1 l2 : list B) (x : B) :
  NoDup (l1 ++ l2) -> In x l1 -> ~ In x l2.
Proof.
  induction l1 as [|y l1 IH]; intros Hnd Hin; [destruct Hin|].
  inversion Hnd as [|? ? Hy Hnd']; subst.
  destruct Hin as [->|Hin]; [|now apply IH].
  intros H2. apply Hy. apply in_or_app. now right.
Qed.

Lemma NoDup_concat_disjoint {B} (L : list (list B)) :
  NoDup (concat L) ->
  forall (i j : nat) s s' t, i <> j -> nth_error L i = Some s -> nth_error L j = Some s' ->
  In t s -> ~ In t s'.
Proof.
  induction L as [|l L IH]; intros Hnd i j s s' t Hij Hi Hj Ht; [destruct i; discriminate|].
  simpl in Hnd.
  assert (Hother : forall k s'', nth_error L k = Some s'' -> In t l -> ~ In t s'').
  { intros k s'' Hk Htl Hts. apply (NoDup_app_disjoint _ _ t Hnd Htl).
    apply in_concat. exists s''. split; [eapply nth_error_In; eauto|exact Hts]. }
  destruct i as [|i], j as [|j]; simpl in Hi, Hj; try congruence.
  - injection Hi as <-. eauto.
  - injection Hj as <-. intros Htl. eapply Hother; eauto.
  - apply (IH (NoDup_app_remove_l _ _ Hnd) i j s s' t); auto.
Qed.

(** [products] with [number >= 2] materialises the prefix product and
    splits it with Mode A of [parts]. *)
Lemma products_split fs (n : Z) :
  2 <= n ->
  products fs (Some (NInt n)) =
  inr (map (generator (skipn (prefix_index fs n) fs))
           (mode_a (product (firstn (prefix_index fs n) fs)) n)).
Proof.
  intros Hn. unfold products.
  destruct (Z.ltb_spec n 1); [lia|]. destruct (Z.eqb_spec n 1); [lia|].
  reflexivity.
Qed.

Lemma products_concat fs (number : option number_arg) ss :
  products fs number = inr ss -> concat ss = product fs.
Proof.
  destruct number as [[n|]|]; [|discriminate|].
  - destruct (Z.lt_ge_cases n 2) as [Hn|Hn].
    + unfold products. destruct (Z.ltb_spec n 1) as [H1|H1]; [discriminate|].
      destruct (Z.eqb_spec n 1) as [H2|H2]; [|lia]. intros H; injection H as <-.
      apply app_nil_r.
    + rewrite products_split by exact Hn. intros H; injection H as <-.
      rewrite generator_concat, mode_a_concat, <- product_app. now rewrite firstn_skipn.
  - intros H; injection H as <-. apply app_nil_r.
Qed.

Lemma split_index_some fs : forall (acc n : Z) (i k : nat),
  split_index fs acc n i = Some k ->
  (i < k <= i + List.length fs)%nat /\ n <= acc * total_size (firstn (k - i) fs).
Proof.
  induction fs as [|a fs IH]; intros acc n i k H; [discriminate|].
  cbn [split_index] in H. destruct (Z.geb_spec (acc * len a) n) as [Hge|Hlt].
  - injection H as <-. replace (S i - i)%nat with 1%nat by lia. simpl. split; [lia|]. lia.
  - destruct (IH _ _ _ _ H) as [Hk Hn]. simpl List.length. split; [lia|].
    replace (k - i)%nat with (S (k - S i)) by lia. cbn [firstn total_size fold_right].
    fold (total_size (firstn (k - S i) fs)). rewrite Z.mul_assoc. exact Hn.
Qed.

Lemma split_index_none fs : forall (acc n : Z) (i : nat),
  acc < n -> split_index fs acc n i = None -> acc * total_size fs < n.
Proof.
  induction fs as [|a fs IH]; intros acc n i Hacc H; [simpl; lia|].
  cbn [split_index] in H. destruct (Z.geb_spec (acc * len a) n) as [Hge|Hlt]; [discriminate|].
  cbn [total_size fold_right]. fold (total_size fs). rewrite Z.mul_assoc. eauto.
Qed.

Lemma Forall_firstn_prefix {B} (P : B -> Prop) (k : nat) (l : list B) :
  Forall P l -> Forall P (firstn k l).
Proof.
  intros H. revert k. induction H as [|x l Hx Hl IH]; intros [|k]; simpl; auto.
Qed.

Lemma total_size_pos fs : Forall (fun f => f <> []) fs -> 1 <= total_size fs.
Proof.
  unfold total_size. induction 1 as [|f fs Hf _ IH]; simpl; [lia|].
  assert (1 <= len f) by (destruct f; [congruence|unfold len; simpl; lia]). nia.
Qed.

Lemma total_size_firstn fs (k : nat) :
  Forall (fun f => f <> []) fs -> total_size (firstn k fs) <= total_size fs.
Proof.
  intros H. revert k. induction H as [|f fs Hf Hfs IH]; intros [|k]; simpl; try lia.
  - pose proof (total_size_pos (f :: fs) ltac:(constructor; auto)). simpl in *. lia.
  - fold (total_size (firstn k fs)) (total_size fs). pose proof (IH k).
    pose proof (len_nonneg f). nia.
Qed.

(** With non-empty factors, [products] returns [min(number, total size)]
    subsets. *)
Lemma products_length fs (n : Z) :
  Forall (fun f => f <> []) fs -> 1 <= n ->
  exists ss, products fs (Some (NInt n)) = inr ss /\
             Z.of_nat (List.length ss) = Z.min n (total_size fs).
Proof.
  intros Hne Hn. pose proof (total_size_pos fs Hne) as Htot.
  destruct (Z.eq_dec n 1) as [->|Hn1].
  - eexists. split; [reflexivity|]. simpl. lia.
  - eexists. split; [apply products_split; lia|]. rewrite length_map.
    set (index := prefix_index fs n).
    set (P := product (firstn index fs)).
    assert (HP : len P = total_size (firstn index fs)) by apply len_product.
    pose proof (total_size_pos (firstn index fs) ltac:(apply Forall_firstn_prefix; exact Hne)) as HP1.
    assert (HPne : P <> []) by (intros E; rewrite E in HP; unfold len in HP; simpl in HP; lia).
    destruct (mode_a_spec P n HPne) as (Hl & _). rewrite Hl, HP.
    assert (Hidx : Z.min n (total_size (firstn index fs)) = Z.min n (total_size fs)).
    { unfold index, prefix_index. destruct (split_index fs 1 n 0) as [k|] eqn:E.
      - apply split_index_some in E as [Hk Hge]. rewrite Nat.sub_0_r, Z.mul_1_l in Hge.
        rewrite Nat.min_r by lia.
        pose proof (total_size_firstn fs k Hne). lia.
      - now rewrite firstn_all. }
    lia.
Qed.

End ProductFacts.

Lemma all_ints_map (ls : list Z) : all_ints (map EInt ls) = Some ls.
Proof. induction ls as [|l ls IH]; simpl; [reflexivity|]. now rewrite IH. Qed.

(** Mode C checks an entry's type only when it reaches it: a non-[int]
    entry raises its [TypeError] only if the entries before it raised
    nothing; otherwise the earlier error stands. *)
Lemma mode_c_sized_later_entry {A} (xs : list A) (es1 es2 : list entry) : forall (i : Z),
  snd (mode_c_sized xs i (es1 ++ EOther :: es2)) =
  match snd (mode_c_sized xs i es1) with None => Some TypeError_length | Some e => Some e end.
Proof.
  induction es1 as [|[l|] es1 IH]; intros i; [reflexivity| |reflexivity].
  cbn [app mode_c_sized]. destruct (slice_sized xs i (i + l)); [reflexivity|].
  unfold cons_part; cbn [snd]. apply IH.
Qed.

Lemma mode_c_pull_later_entry {A} (es1 es2 : list entry) : forall (c : cursor A),
  snd (mode_c_pull c (es1 ++ EOther :: es2)) =
  match snd (mode_c_pull c es1) with None => Some TypeError_length | Some e => Some e end.
Proof.
  induction es1 as [|[l|] es1 IH]; intros c; [reflexivity| |reflexivity].
  cbn [app mode_c_pull].
  destruct ((l <? 0) || (maxsize <? l)); [reflexivity|].
  destruct (l =? 0); [reflexivity|].
  destruct (empty_pull c) as [e|[c' [|]]]; [reflexivity..|].
  destruct (take_cursor (Z.to_nat l) c') as [e|[part rest]]; [reflexivity|].
  unfold cons_part; cbn [snd]. apply IH.
Qed.

(** * The claims *)
Section Claims.
Context {A : Type}.
Implicit Types (xs : list A).

(** C2 (Mode A count exactness, balance and clamping): for a non-empty
    sized input and any integer [k], [parts(xs, number=k)] ends without
    error after yielding exactly [max(1, min(len(xs), k))] non-empty parts;
    for any two parts, the earlier one is no longer than the later one and
    at most one element shorter. *)
Theorem parts_number_balanced xs (k : Z) :
  xs <> [] ->
  let r := parts (Sized xs) (Some (NInt k)) None in
  snd r = None /\
  Z.of_nat (List.length (fst r)) = Z.max 1 (Z.min (len xs) k) /\
  Forall (fun p => p <> []) (fst r) /\
  (forall (i j : nat) p p', (i <= j)%nat -> nth_error (fst r) i = Some p ->
     nth_error (fst r) j = Some p' -> len p <= len p' <= len p + 1).
Proof.
  intros Hne. cbv zeta. cbn [parts fst snd].
  destruct (mode_a_spec xs k Hne) as (Hl & _ & Hb & Hs & Hq).
  split; [reflexivity|]. split; [exact Hl|]. split.
  - eapply Forall_impl; [|exact Hb]. intros p Hp E. subst p.
    assert (len (@nil A) = 0) as E0 by reflexivity. rewrite E0 in Hp. lia.
  - intros i j p p' Hij Hp Hp'.
    rewrite Forall_forall in Hb.
    pose proof (Hb p (nth_error_In _ _ Hp)). pose proof (Hb p' (nth_error_In _ _ Hp')).
    destruct (Nat.eq_dec i j) as [<-|Hne'].
    + rewrite Hp in Hp'. injection Hp' as <-. lia.
    + pose proof (strongly_sorted_nth _ _ Hs i j p p' ltac:(lia) Hp Hp') as Hle.
      cbv beta in Hle. lia.
Qed.

(** C10 (empty input in count mode): for an empty sized input and any
    integer [k], [parts(xs, number=k)] yields no part and raises nothing. *)
Theorem parts_number_empty_input (k : Z) :
  parts (Sized (@nil A)) (Some (NInt k)) None = ([], None).
Proof. cbn [parts]. now rewrite mode_a_nil. Qed.

(** C5 (Mode D with an [int] length): with [l' = max(1, l)], the call
    raises the unsatisfiable-count-length error exactly when
    [len(xs) > l' * n] or [len(xs) <= l' * (n - 1)]; otherwise it ends
    normally after [n] contiguous slices covering [xs], each of length
    [l'] except the last, of length [len(xs) - l' * (n - 1)], which is
    shorter than [l'] exactly when [l' * n] overshoots [len(xs)]. *)
Theorem parts_number_length_int xs (n l : Z) :
  let l' := Z.max 1 l in
  let r := parts (Sized xs) (Some (NInt n)) (Some (LInt l)) in
  (snd r = Some ValueError_unsatisfiable <-> len xs > l' * n \/ len xs <= l' * (n - 1)) /\
  (~ (len xs > l' * n \/ len xs <= l' * (n - 1)) ->
     snd r = None /\ Z.of_nat (List.length (fst r)) = n /\ concat (fst r) = xs /\
     (forall (j : nat) p, (S j < List.length (fst r))%nat -> nth_error (fst r) j = Some p ->
        len p = l') /\
     (forall p, nth_error (fst r) (List.length (fst r) - 1) = Some p ->
        len p = len xs - l' * (n - 1) /\ (len p < l' <-> len xs < l' * n))).
Proof.
  cbv zeta. cbn [parts mode_d]. unfold mode_d_int.
  set (l' := Z.max 1 l). assert (Hl' : 1 <= l') by lia.
  pose proof (len_nonneg xs) as Hlen.
  destruct ((len xs >? l' * n) || (len xs <=? l' * (n - 1))) eqn:E.
  - apply orb_true_iff in E. rewrite Z.gtb_ltb, Z.ltb_lt, Z.leb_le in E.
    cbn [snd]. split; [split; [intros _; lia|reflexivity]|]. intros H; lia.
  - apply orb_false_iff in E. rewrite Z.gtb_ltb, Z.ltb_ge, Z.leb_gt in E.
    cbn [fst snd]. split; [split; [discriminate|lia]|]. intros _.
    assert (Hn : 0 <= n) by nia.
    assert (Hnl : n <= len xs) by nia.
    destruct (range_slices xs l' (Z.to_nat n) (Z.to_nat (len xs)) 0 Hl' ltac:(lia)
                ltac:(lia) ltac:(rewrite Z2Nat.id by lia; lia)) as (Hl & Hc & Hmid & Hlast).
    rewrite Hl. split; [reflexivity|]. split; [lia|]. split; [exact Hc|].
    split; [exact Hmid|].
    intros p Hp. rewrite (Hlast p Hp), Z2Nat.id by lia. split; lia.
Qed.

(** C8 (Mode D with a list of lengths): for whole-number lengths [ls]
    and an integer count [n], [parts(xs, number=n, length=ls)] raises
    count-length-mismatch when [len(ls) <> n]; otherwise
    insufficient-elements when the entries but the last sum to at least
    [len(xs)]; otherwise excess-elements when all entries sum to less than
    [len(xs)]; otherwise it ends normally after [len(ls)] slices covering
    [xs], of the lengths in [ls] in order, the last one cut at the end of
    [xs]. *)
Theorem parts_number_length_list xs (n : Z) (ls : list Z) :
  Forall (fun l => 0 <= l) ls ->
  let r := parts (Sized xs) (Some (NInt n)) (Some (LIterable true (map EInt ls))) in
  (Z.of_nat (List.length ls) <> n -> r = ([], Some ValueError_mismatch)) /\
  (Z.of_nat (List.length ls) = n -> len xs <= sum (removelast ls) ->
     r = ([], Some ValueError_too_few)) /\
  (Z.of_nat (List.length ls) = n -> sum (removelast ls) < len xs -> sum ls < len xs ->
     r = ([], Some ValueError_too_many)) /\
  (Z.of_nat (List.length ls) = n -> sum (removelast ls) < len xs -> len xs <= sum ls ->
     snd r = None /\ List.length (fst r) = List.length ls /\ concat (fst r) = xs /\
     (forall (j : nat) p l, (S j < List.length ls)%nat -> nth_error (fst r) j = Some p ->
        nth_error ls j = Some l -> len p = l) /\
     (forall p, nth_error (fst r) (List.length ls - 1) = Some p ->
        len p = len xs - sum (removelast ls))).
Proof.
  intros Hpos. cbv zeta. cbn [parts mode_d]. rewrite all_ints_map. unfold mode_d_list.
  split; [|split; [|split]].
  - intros Hne. destruct (Z.eqb_spec (Z.of_nat (List.length ls)) n); [contradiction|reflexivity].
  - intros Heq Hle. rewrite (proj2 (Z.eqb_eq _ _) Heq). cbn [negb].
    destruct (Z.leb_spec (len xs) (sum (removelast ls))); [reflexivity|lia].
  - intros Heq Hlt Hlt'. rewrite (proj2 (Z.eqb_eq _ _) Heq). cbn [negb].
    destruct (Z.leb_spec (len xs) (sum (removelast ls))); [lia|].
    destruct (Z.gtb_spec (len xs) (sum ls)); [reflexivity|lia].
  - intros Heq Hlt Hge. rewrite (proj2 (Z.eqb_eq _ _) Heq). cbn [negb].
    destruct (Z.leb_spec (len xs) (sum (removelast ls))); [lia|].
    destruct (Z.gtb_spec (len xs) (sum ls)); [lia|].
    destruct (slices_by_spec xs ls 0 Hpos ltac:(lia) ltac:(lia) ltac:(lia))
      as (Hl & Hc & Hmid & Hlast).
    cbn [fst snd]. split; [reflexivity|]. split; [exact Hl|]. split; [exact Hc|].
    split; [exact Hmid|]. intros p Hp. rewrite (Hlast p Hp). lia.
Qed.

(** C7, as the code does it (Mode C, whole-number lengths): the call
    raises insufficient-elements exactly when some part probes empty,
    i.e. when an entry is 0 or the entries but the last already sum to at
    least [len(xs)]; otherwise it ends normally and its parts are the first
    [sum(ls)] elements of [xs] -- a list of positive lengths summing to less
    than [len(xs)] raises nothing and leaves the rest of [xs] out. *)
Theorem parts_lengths_insufficient xs (is_list : bool) (ls : list Z) :
  Forall (fun l => 0 <= l) ls ->
  let r := parts (Sized xs) None (Some (LIterable is_list (map EInt ls))) in
  (snd r = Some ValueError_too_few <->
     In 0 ls \/ (ls <> [] /\ len xs <= sum (removelast ls))) /\
  (snd r = None \/ snd r = Some ValueError_too_few) /\
  (snd r = None -> concat (fst r) = firstn (Z.to_nat (sum ls)) xs).
Proof.
  intros Hpos. cbv zeta. cbn [parts mode_c].
  destruct (mode_c_sized_spec xs ls 0 Hpos ltac:(lia)) as (Hiff & Hout & Hcat).
  rewrite Z.sub_0_r in Hiff. auto.
Qed.

(** C1, as the code does it (coverage): on a sized input, the parts of a
    run that ends without error concatenate to [xs] in the count-only, the
    [int]-length, the count-and-[int]-length and the
    count-and-list-of-whole-numbers modes (the first two never fail); in
    the lengths-only mode with whole numbers they concatenate to the first
    [sum(ls)] elements of [xs]. *)
Theorem parts_coverage xs :
  (forall k, snd (parts (Sized xs) (Some (NInt k)) None) = None /\
             concat (fst (parts (Sized xs) (Some (NInt k)) None)) = xs) /\
  (forall l, snd (parts (Sized xs) None (Some (LInt l))) = None /\
             concat (fst (parts (Sized xs) None (Some (LInt l)))) = xs) /\
  (forall n l ps, parts (Sized xs) (Some (NInt n)) (Some (LInt l)) = (ps, None) ->
     concat ps = xs) /\
  (forall n ls ps, Forall (fun l => 0 <= l) ls ->
     parts (Sized xs) (Some (NInt n)) (Some (LIterable true (map EInt ls))) = (ps, None) ->
     concat ps = xs) /\
  (forall is_list ls ps, Forall (fun l => 0 <= l) ls ->
     parts (Sized xs) None (Some (LIterable is_list (map EInt ls))) = (ps, None) ->
     concat ps = firstn (Z.to_nat (sum ls)) xs).
Proof.
  split; [|split; [|split; [|split]]].
  - intros k. cbn [parts fst snd]. split; [reflexivity|apply mode_a_concat].
  - intros l. cbn [parts mode_b fst snd]. split; [reflexivity|].
    apply mode_b_sized_concat; [lia|lia|unfold len; lia].
  - intros n l ps H. cbn [parts mode_d] in H. unfold mode_d_int in H.
    destruct (_ || _) eqn:E; [discriminate|]. injection H as <-.
    apply orb_false_iff in E. rewrite Z.gtb_ltb, Z.ltb_ge, Z.leb_gt in E.
    pose proof (len_nonneg xs).
    assert (Hn : 0 <= n) by nia. assert (Hnl : n <= len xs) by nia.
    destruct (range_slices xs (Z.max 1 l) (Z.to_nat n) (Z.to_nat (len xs)) 0
                ltac:(lia) ltac:(lia) ltac:(lia) ltac:(rewrite Z2Nat.id by lia; lia))
      as (_ & Hc & _).
    exact Hc.
  - intros n ls ps Hpos H.
    cbn [parts mode_d] in H. rewrite all_ints_map in H. unfold mode_d_list in H.
    destruct (negb _); [discriminate|].
    destruct (Z.leb_spec (len xs) (sum (removelast ls))); [discriminate|].
    destruct (Z.gtb_spec (len xs) (sum ls)); [discriminate|]. injection H as <-.
    destruct (slices_by_spec xs ls 0 Hpos ltac:(lia) ltac:(lia) ltac:(lia)) as (_ & Hc & _).
    exact Hc.
  - intros is_list ls ps Hpos H.
    destruct (mode_c_sized_spec xs ls 0 Hpos ltac:(lia)) as (_ & _ & Hcat).
    cbn [parts mode_c] in H. rewrite H in Hcat. exact (Hcat eq_refl).
Qed.

(** C6, as the code does it (error priority): a non-[int] [number], and
    a [length] that is neither an [int] nor iterable, are reported before
    anything else; the entries of a length iterable are checked later: in
    Mode D after the known-length check (and before the count and sum
    checks), in Mode C one by one as they are consumed: there a non-[int]
    entry raises its [TypeError] only when the entries before it raised
    nothing, and otherwise the earlier error (such as insufficient-elements)
    is the one raised. *)
Theorem parts_type_errors_first :
  (forall (xs : input A) l, parts xs (Some NOther) l = ([], Some TypeError_number)) /\
  (forall (xs : input A) (n : option Z),
     parts xs (option_map NInt n) (Some LOther) = ([], Some TypeError_length)) /\
  (forall (ys : list A) n is_list es, all_ints es = None \/ is_list = false ->
     parts (Sized ys) (Some (NInt n)) (Some (LIterable is_list es))
     = ([], Some TypeError_length_list)) /\
  (forall (c : cursor A) n is_list es,
     parts (Pull c) (Some (NInt n)) (Some (LIterable is_list es))
     = ([], Some TypeError_no_len_both)) /\
  (forall (xs : input A) is_list es1 es2,
     snd (parts xs None (Some (LIterable is_list (es1 ++ EOther :: es2)))) =
     match snd (parts xs None (Some (LIterable is_list es1))) with
     | None => Some TypeError_length
     | Some e => Some e
     end).
Proof.
  split; [|split; [|split; [|split]]].
  - intros xs l. reflexivity.
  - intros xs [n|]; reflexivity.
  - intros ys n [|] es [H|H]; cbn [parts mode_d]; try discriminate; try reflexivity.
    now rewrite H.
  - reflexivity.
  - intros [ys|c] is_list es1 es2; cbn [parts mode_c].
    + apply mode_c_sized_later_entry.
    + apply mode_c_pull_later_entry.
Qed.

(** C9 (non-destructive emptiness probe): on a pull-only input, [_empty]
    either propagates the exception [next] raises, or returns a cursor and
    a flag that is [True] exactly when [next] signals exhaustion, the
    cursor giving a consumer the same elements (and the same ending) as
    the input before the probe. *)
Theorem empty_pull_restores (c : cursor A) :
  (forall c' b, empty_pull c = inr (c', b) ->
     (b = true <-> next c = inr None) /\ drain c' = drain c) /\
  (forall e, empty_pull c = inl e <-> next c = inl e).
Proof.
  destruct c as [| |x rest]; cbn [empty_pull next chain]; split.
  - intros c' b H. injection H as <- <-. split; [split; reflexivity|reflexivity].
  - intros e. split; discriminate.
  - intros c' b H. discriminate.
  - intros e. split; intros H; injection H as <-; reflexivity.
  - intros c' b H. injection H as <- <-. split; [split; discriminate|reflexivity].
  - intros e. split; discriminate.
Qed.

(** C3, as the code does it (products cover the Cartesian product): the
    subsets [products] returns, concatenated in order, are the whole
    Cartesian product in its lexicographic order (so each subset is a
    contiguous chunk of it and their multiset union is the product); when
    no factor repeats an element they are pairwise disjoint; with no
    factors the result is one subset holding the empty tuple. *)
Theorem products_cover (fs : list (list A)) (number : option number_arg) ss :
  products fs number = inr ss ->
  concat ss = product fs /\
  (Forall (@NoDup A) fs -> pairwise_disjoint ss) /\
  (fs = [] -> ss = [[[]]]).
Proof.
  intros H. pose proof (products_concat fs number ss H) as Hc.
  split; [exact Hc|split].
  - intros Hnd i j s s' t Hij Hi Hj Ht.
    apply (NoDup_concat_disjoint ss) with (i := i) (j := j) (s := s); auto.
    rewrite Hc. now apply NoDup_product.
  - intros ->. destruct number as [[n|]|]; [|discriminate|].
    + destruct (Z.lt_ge_cases n 2) as [Hn|Hn].
      * unfold products in H. destruct (Z.ltb_spec n 1); [discriminate|].
        destruct (Z.eqb_spec n 1); [|lia]. now injection H as <-.
      * rewrite products_split in H by exact Hn. injection H as <-.
        assert (E : mode_a [@nil A] n = [[@nil A]]).
        { unfold mode_a. replace (Z.max 1 (Z.min (len [@nil A]) n)) with 1
            by (unfold len; simpl; lia). reflexivity. }
        cbn [prefix_index split_index firstn skipn product List.length flat_map map].
        rewrite E. reflexivity.
    + now injection H as <-.
Qed.

(** C4, as the code does it (number of subsets): [products] returns one
    subset when [number] is omitted or 1, whatever the factors; for a
    positive [number] and non-empty factors it returns exactly
    [min(number, total product size)] subsets. *)
Theorem products_count (fs : list (list A)) :
  products fs None = inr [product fs] /\
  products fs (Some (NInt 1)) = inr [product fs] /\
  (Forall (fun f => f <> []) fs -> forall n, 1 <= n ->
     exists ss, products fs (Some (NInt n)) = inr ss /\
                Z.of_nat (List.length ss) = Z.min n (total_size fs)).
Proof.
  split; [reflexivity|split; [reflexivity|]].
  intros Hne n Hn. exact (products_length fs n Hne Hn).
Qed.

End Claims.

(** * Counterexamples *)

(** C1: [parts([1, 2, 3], length=[1])] ends normally after the single
    part [[1]]; the elements 2 and 3 are in no part. *)
Lemma parts_lengths_drop_rest :
  parts (Sized [1; 2; 3]) None (Some (LIterable true [EInt 1])) = ([[1]], None) /\
  concat [[1]] <> [1; 2; 3].
Proof. split; [reflexivity|discriminate]. Qed.

(** C7: [parts([1, 2, 3], length=[1, 1])], whose lengths sum to 2 < 3,
    raises nothing. *)
Lemma parts_lengths_short_no_error :
  parts (Sized [1; 2; 3]) None (Some (LIterable true [EInt 1; EInt 1]))
  = ([[1]; [2]], None).
Proof. reflexivity. Qed.

(** C6: [parts([1, 2, 3], length=[0, 1.5])] raises insufficient-elements,
    not the type error of the entry [1.5]; [parts(iter([1, 2]), number=1,
    length=[1.5])] raises requires-known-length. *)
Lemma parts_feasibility_before_entry_type :
  parts (Sized [1; 2; 3]) None (Some (LIterable true [EInt 0; EOther]))
    = ([], Some ValueError_too_few) /\
  parts (Pull (chain [1; 2] CStop)) (Some (NInt 1)) (Some (LIterable true [EOther]))
    = ([], Some TypeError_no_len_both).
Proof. split; reflexivity. Qed.

(** C3: [products([1, 1], number=2)] returns two subsets that both hold
    the tuple [(1,)]. *)
Lemma products_repeated_element_overlap :
  products [[1; 1]] (Some (NInt 2)) = inr [[[1]]; [[1]]] /\
  ~ pairwise_disjoint [[[1]]; [[1]]].
Proof.
  split; [reflexivity|]. intros H.
  apply (H 0%nat 1%nat [[1]] [[1]] [1]); simpl; auto.
Qed.

(** C4: [products([], number=1)] returns one subset although the product
    has no element, so [min(1, 0) = 0]. *)
Lemma products_one_subset_of_empty_product :
  ~ exists ss, products [@nil Z] (Some (NInt 1)) = inr ss /\
               Z.of_nat (List.length ss) = Z.min 1 (total_size [@nil Z]).
Proof.
  intros (ss & H & Hl). injection H as <-. discriminate Hl.
Qed.

(** * Witnesses *)

Lemma parts_number_balanced_witness :
  l7 <> [] /\ snd (parts (Sized l7) (Some (NInt 3)) None) = None /\
  Z.of_nat (List.length (fst (parts (Sized l7) (Some (NInt 3)) None))) = 3.
Proof.
  split; [discriminate|].
  destruct (parts_number_balanced l7 3 ltac:(discriminate)) as (H1 & H2 & _).
  split; [exact H1|]. rewrite H2. reflexivity.
Defined.

Lemma parts_number_length_list_witness :
  Forall (fun l => 0 <= l) [1; 2] /\
  concat (fst (parts (Sized [1; 2; 3]) (Some (NInt 2)) (Some (LIterable true (map EInt [1; 2])))))
  = [1; 2; 3].
Proof.
  assert (Hpos : Forall (fun l => 0 <= l) [1; 2]) by (repeat constructor; lia).
  split; [exact Hpos|].
  destruct (parts_number_length_list [1; 2; 3] 2 [1; 2] Hpos) as (_ & _ & _ & H).
  apply H; vm_compute; congruence.
Defined.

Lemma parts_lengths_insufficient_witness :
  Forall (fun l => 0 <= l) [1; 1; 1; 1] /\
  snd (parts (Sized [1; 2; 3]) None (Some (LIterable true (map EInt [1; 1; 1; 1]))))
  = Some ValueError_too_few.
Proof.
  assert (Hpos : Forall (fun l => 0 <= l) [1; 1; 1; 1]) by (repeat constructor; lia).
  split; [exact Hpos|].
  destruct (parts_lengths_insufficient [1; 2; 3] true [1; 1; 1; 1] Hpos) as (H & _).
  apply H. right. split; [discriminate|]. vm_compute. discriminate.
Defined.

Lemma products_cover_witness :
  products [[1; 2]; [3; 4]] (Some (NInt 2)) = inr [[[1; 3]; [1; 4]]; [[2; 3]; [2; 4]]] /\
  concat [[[1; 3]; [1; 4]]; [[2; 3]; [2; 4]]] = product [[1; 2]; [3; 4]].
Proof.
  split; [reflexivity|].
  exact (proj1 (products_cover [[1; 2]; [3; 4]] (Some (NInt 2)) _ eq_refl)).
Defined.

(** * Lemmas on cursors and on the modes of [parts] *)
Section CursorFacts.
Context {A : Type}.
Implicit Types (xs zs : list A) (c : cursor A).

Lemma take_cursor_chain_le (n : nat) zs c :
  (n <= List.length zs)%nat ->
  take_cursor n (chain zs c) = inr (firstn n zs, chain (skipn n zs) c).
Proof.
  revert zs; induction n as [|n IH]; intros zs Hn; [reflexivity|].
  destruct zs as [|z zs]; simpl in Hn; [lia|].
  cbn [take_cursor chain next]. rewrite IH by lia. reflexivity.
Qed.

Lemma take_cursor_chain_stop (n : nat) zs :
  take_cursor n (chain zs CStop) = inr (firstn n zs, chain (skipn n zs) CStop).
Proof.
  revert zs; induction n as [|n IH]; intros zs; [reflexivity|].
  destruct zs as [|z zs]; [reflexivity|].
  cbn [take_cursor chain next]. rewrite IH. reflexivity.
Qed.

Lemma take_cursor_chain_raise (n : nat) zs :
  (List.length zs < n)%nat -> take_cursor n (chain zs CRaise) = inl GeneratorError.
Proof.
  revert zs; induction n as [|n IH]; intros zs Hn; [lia|].
  destruct zs as [|z zs]; [reflexivity|]. simpl in Hn.
  cbn [take_cursor chain next]. rewrite IH by lia. reflexivity.
Qed.

(** A part taken after a successful probe is never empty. *)
Lemma empty_pull_take_nonempty c c' (n : nat) part rest :
  empty_pull c = inr (c', false) -> (1 <= n)%nat ->
  take_cursor n c' = inr (part, rest) -> part <> [].
Proof.
  intros Hp Hn Ht. destruct c as [| |x r]; cbn in Hp; try discriminate.
  injection Hp as <-. destruct n as [|n]; [lia|].
  cbn [chain take_cursor next] in Ht.
  destruct (take_cursor n r) as [e|[ys c'']]; [discriminate|].
  injection Ht as <- _. discriminate.
Qed.

End CursorFacts.

Section ModeFacts.
Context {A : Type}.
Implicit Types (xs : list A) (c : cursor A).

(** Mode B on a sized sequence is the [range(index, len, length)] loop of
    slices. *)
Lemma mode_b_sized_range xs (l : Z) (f : nat) : forall (i : Z),
  1 <= l -> 0 <= i ->
  mode_b_sized f xs l i = map (fun j => py_slice xs j (j + l)) (range_step f i (len xs) l).
Proof.
  induction f as [|f IH]; intros i Hl Hi; [reflexivity|].
  cbn [mode_b_sized range_step]. rewrite slice_sized_nonneg by lia.
  destruct (Z.ltb_spec i (len xs)) as [Hlt|Hge].
  - destruct (firstn (Z.to_nat l) (skipn (Z.to_nat i) xs)) as [|a t] eqn:E.
    + apply firstn_skipn_nil in E; lia.
    + cbn [map]. rewrite <- E, IH by lia. rewrite py_slice_step by lia. reflexivity.
  - rewrite skipn_all2 by (unfold len in Hge; lia). now rewrite firstn_nil.
Qed.

Lemma range_step_fuel (n l : Z) (f : nat) : forall (g : nat) (i : Z),
  1 <= l -> n - i <= Z.of_nat f -> n - i <= Z.of_nat g ->
  range_step f i n l = range_step g i n l.
Proof.
  induction f as [|f IH]; intros g i Hl Hf Hg.
  - destruct g; simpl; [reflexivity|]. destruct (Z.ltb_spec i n); [lia|reflexivity].
  - destruct g as [|g]; cbn [range_step].
    + destruct (Z.ltb_spec i n); [lia|reflexivity].
    + destruct (Z.ltb_spec i n); [|reflexivity]. f_equal. apply IH; lia.
Qed.

(** Every part Mode B yields on a sized sequence is non-empty. *)
Lemma mode_b_sized_nonempty xs (l : Z) (f : nat) : forall (i : Z),
  Forall (fun p => p <> []) (mode_b_sized f xs l i).
Proof.
  induction f as [|f IH]; intros i; [constructor|]. cbn [mode_b_sized].
  destruct (slice_sized xs i (i + l)) as [|a t] eqn:E; [constructor|].
  constructor; [discriminate|apply IH].
Qed.

Lemma mode_b_pull_nonempty c (l : Z) (f : nat) :
  1 <= l -> Forall (fun p => p <> []) (fst (mode_b_pull f c l)).
Proof.
  intros Hl. revert c; induction f as [|f IH]; intros c; [constructor|].
  cbn [mode_b_pull]. destruct (maxsize <? l); [constructor|].
  destruct (empty_pull c) as [e|[c' [|]]] eqn:Ep; [constructor|constructor|].
  destruct (take_cursor (Z.to_nat l) c') as [e|[part rest]] eqn:Et; [constructor|].
  unfold cons_part; cbn [fst]. constructor; [|apply IH].
  apply (empty_pull_take_nonempty c c' (Z.to_nat l) part rest Ep); [lia|exact Et].
Qed.

Lemma mode_c_sized_nonempty xs (es : list entry) : forall (i : Z),
  Forall (fun p => p <> []) (fst (mode_c_sized xs i es)).
Proof.
  induction es as [|[l|] es IH]; intros i; cbn [mode_c_sized]; try constructor.
  destruct (slice_sized xs i (i + l)) as [|a t]; [constructor|].
  unfold cons_part; cbn [fst]. constructor; [discriminate|apply IH].
Qed.

Lemma mode_c_pull_nonempty (es : list entry) : forall c,
  Forall (fun p => p <> []) (fst (mode_c_pull c es)).
Proof.
  induction es as [|[l|] es IH]; intros c; cbn [mode_c_pull]; try constructor.
  destruct (Z.ltb_spec l 0); cbn [orb]; [constructor|].
  destruct (maxsize <? l); [constructor|].
  destruct (Z.eqb_spec l 0); [constructor|].
  destruct (empty_pull c) as [e|[c' [|]]] eqn:Ep; [constructor|constructor|].
  destruct (take_cursor (Z.to_nat l) c') as [e|[part rest]] eqn:Et; [constructor|].
  unfold cons_part; cbn [fst]. constructor; [|apply IH].
  apply (empty_pull_take_nonempty c c' (Z.to_nat l) part rest Ep); [lia|exact Et].
Qed.

(** Mode B on a finite generator behaves as on the list of its elements. *)
Lemma mode_b_pull_chain xs (l : Z) (f : nat) : forall (i : Z),
  1 <= l -> l <= maxsize -> 0 <= i ->
  mode_b_pull f (chain (skipn (Z.to_nat i) xs) CStop) l = (mode_b_sized f xs l i, None).
Proof.
  induction f as [|f IH]; intros i Hl Hmax Hi; [reflexivity|].
  cbn [mode_b_pull mode_b_sized]. rewrite slice_sized_nonneg by lia.
  destruct (Z.ltb_spec maxsize l); [lia|].
  destruct (skipn (Z.to_nat i) xs) as [|y ys] eqn:E.
  - rewrite firstn_nil. reflexivity.
  - cbn [empty_pull chain next]. change (CYield y (chain ys CStop)) with (chain (y :: ys) CStop).
    rewrite take_cursor_chain_stop.
    destruct (firstn (Z.to_nat l) (y :: ys)) as [|a t] eqn:F.
    + destruct (Z.to_nat l) eqn:L; [lia|discriminate].
    + rewrite <- F, <- E, skipn_skipn.
      replace (Z.to_nat l + Z.to_nat i)%nat with (Z.to_nat (i + l)) by lia.
      rewrite IH by lia. reflexivity.
Qed.

Lemma mode_b_pull_raise (l : Z) (f : nat) : forall xs,
  1 <= l -> l <= maxsize -> (List.length xs < f)%nat ->
  snd (mode_b_pull f (chain xs CRaise) l) = Some GeneratorError.
Proof.
  induction f as [|f IH]; intros xs Hl Hmax Hf; [lia|].
  cbn [mode_b_pull]. destruct (Z.ltb_spec maxsize l); [lia|].
  destruct xs as [|y ys]; [reflexivity|].
  cbn [empty_pull chain next]. change (CYield y (chain ys CRaise)) with (chain (y :: ys) CRaise).
  destruct (Nat.le_gt_cases (Z.to_nat l) (List.length (y :: ys))) as [Hle|Hgt].
  - rewrite take_cursor_chain_le by exact Hle. unfold cons_part; cbn [snd].
    apply IH; [lia|lia|]. rewrite length_skipn. cbn [List.length] in *. lia.
  - rewrite take_cursor_chain_raise by exact Hgt. reflexivity.
Qed.

Lemma mode_c_pull_chain xs (es : list entry) : forall (i : Z),
  Forall (fun e => match e with EInt l => 0 <= l <= maxsize | EOther => True end) es ->
  0 <= i ->
  mode_c_pull (chain (skipn (Z.to_nat i) xs) CStop) es = mode_c_sized xs i es.
Proof.
  induction es as [|[l|] es IH]; intros i Hes Hi; [reflexivity| |reflexivity].
  inversion Hes as [|? ? Hl Hes']; subst. simpl in Hl.
  cbn [mode_c_pull mode_c_sized]. rewrite slice_sized_nonneg by lia.
  destruct (Z.ltb_spec l 0); [lia|]. destruct (Z.ltb_spec maxsize l); [lia|]. cbn [orb].
  destruct (Z.eqb_spec l 0) as [->|Hl0]; [reflexivity|].
  destruct (skipn (Z.to_nat i) xs) as [|y ys] eqn:E.
  - rewrite firstn_nil. reflexivity.
  - cbn [empty_pull chain next]. change (CYield y (chain ys CStop)) with (chain (y :: ys) CStop).
    rewrite take_cursor_chain_stop.
    destruct (firstn (Z.to_nat l) (y :: ys)) as [|a t] eqn:F.
    + destruct (Z.to_nat l) eqn:L; [lia|discriminate].
    + rewrite <- F, <- E, skipn_skipn.
      replace (Z.to_nat l + Z.to_nat i)%nat with (Z.to_nat (i + l)) by lia.
      rewrite IH by (exact Hes' || lia). reflexivity.
Qed.

End ModeFacts.

Section MoreFacts.
Context {A : Type}.
Implicit Types (xs : list A) (c : cursor A) (fs : list (list A)).

Lemma mode_c_sized_app xs (es1 es2 : list entry) : forall (i : Z),
  let r1 := mode_c_sized xs i es1 in
  let r2 := mode_c_sized xs i (es1 ++ es2) in
  (exists rest, fst r2 = fst r1 ++ rest) /\ (snd r1 <> None -> r2 = r1).
Proof.
  induction es1 as [|[l|] es1 IH]; intros i; cbv zeta.
  - split; [eexists; reflexivity|]. simpl. congruence.
  - cbn [app mode_c_sized].
    destruct (slice_sized xs i (i + l)) as [|a t].
    + split; [exists []; reflexivity|reflexivity].
    + destruct (IH (i + l)) as [[rest Hr] Hs]. unfold cons_part; cbn [fst snd].
      split; [exists rest; rewrite Hr; reflexivity|].
      intros Hn. rewrite (Hs Hn). reflexivity.
  - split; [exists []; reflexivity|reflexivity].
Qed.

Lemma mode_c_pull_app (es1 es2 : list entry) : forall c,
  let r1 := mode_c_pull c es1 in
  let r2 := mode_c_pull c (es1 ++ es2) in
  (exists rest, fst r2 = fst r1 ++ rest) /\ (snd r1 <> None -> r2 = r1).
Proof.
  induction es1 as [|[l|] es1 IH]; intros c; cbv zeta.
  - split; [eexists; reflexivity|]. simpl. congruence.
  - cbn [app mode_c_pull].
    destruct ((l <? 0) || (maxsize <? l)); [split; [exists []; reflexivity|reflexivity]|].
    destruct (l =? 0); [split; [exists []; reflexivity|reflexivity]|].
    destruct (empty_pull c) as [e|[c' [|]]]; [split; [exists []; reflexivity|reflexivity]..|].
    destruct (take_cursor (Z.to_nat l) c') as [e|[part rest]];
      [split; [exists []; reflexivity|reflexivity]|].
    destruct (IH rest) as [[rest' Hr] Hs]. unfold cons_part; cbn [fst snd].
    split; [exists rest'; rewrite Hr; reflexivity|].
    intros Hn. rewrite (Hs Hn). reflexivity.
  - split; [exists []; reflexivity|reflexivity].
Qed.

(** Mode C, on lengths whose parts all find elements, yields the same
    slices as Mode D with a list. *)
Lemma mode_c_sized_slices xs (ls : list Z) : forall (i : Z),
  Forall (fun l => 1 <= l) ls -> 0 <= i -> i + sum (removelast ls) < len xs ->
  mode_c_sized xs i (map EInt ls) = (slices_by xs i ls, None).
Proof.
  induction ls as [|l ls IH]; intros i Hpos Hi Hlt; [reflexivity|].
  inversion Hpos as [|? ? Hl Hpos']; subst.
  assert (Hs : 0 <= sum (removelast ls)).
  { apply sum_nonneg, Forall_removelast. eapply Forall_impl; [|exact Hpos']. simpl; intros; lia. }
  cbn [map mode_c_sized slices_by]. rewrite slice_sized_nonneg by lia.
  destruct (firstn (Z.to_nat l) (skipn (Z.to_nat i) xs)) as [|a t] eqn:E.
  - apply firstn_skipn_nil in E; [|lia..].
    destruct ls as [|l' ls']; [simpl in Hlt; lia|].
    rewrite removelast_cons in Hlt by discriminate. cbn [sum] in Hlt. lia.
  - destruct ls as [|l' ls']; [reflexivity|].
    rewrite removelast_cons in Hlt by discriminate. cbn [sum] in Hlt.
    rewrite IH by (exact Hpos' || lia). reflexivity.
Qed.

Lemma mode_a_nonempty xs (k : Z) : Forall (fun p => p <> []) (mode_a xs k).
Proof.
  destruct xs as [|x xs']; [rewrite mode_a_nil; constructor|].
  destruct (mode_a_spec (x :: xs') k ltac:(discriminate)) as (_ & _ & Hb & _ & Hq).
  eapply Forall_impl; [|exact Hb]. intros p Hp E. subst p.
  assert (len (@nil A) = 0) as E0 by reflexivity. rewrite E0 in Hp. lia.
Qed.

(** Two parts of Mode A, the earlier first: the later one has the same
    length or one more element. *)
Lemma mode_a_nth_sizes xs (k : Z) (i j : nat) p p' :
  (i <= j)%nat -> nth_error (mode_a xs k) i = Some p -> nth_error (mode_a xs k) j = Some p' ->
  len p' = len p \/ len p' = len p + 1.
Proof.
  intros Hij Hp Hp'. destruct xs as [|x xs']; [rewrite mode_a_nil in Hp; destruct i; discriminate|].
  destruct (mode_a_spec (x :: xs') k ltac:(discriminate)) as (_ & _ & Hb & Hs & _).
  set (q := len (x :: xs') / Z.max 1 (Z.min (len (x :: xs')) k)) in Hb.
  rewrite Forall_forall in Hb.
  pose proof (Hb p ltac:(eapply nth_error_In; eauto)) as Hbp.
  pose proof (Hb p' ltac:(eapply nth_error_In; eauto)) as Hbp'.
  destruct (Nat.eq_dec i j) as [<-|Hne]; [rewrite Hp in Hp'; injection Hp' as <-; now left|].
  pose proof (strongly_sorted_nth _ _ Hs i j p p' ltac:(lia) Hp Hp') as Hle. cbv beta in Hle.
  lia.
Qed.

Lemma length_concat_ge {B} (ps : list (list B)) :
  Forall (fun p => p <> []) ps -> (List.length ps <= List.length (concat ps))%nat.
Proof.
  induction 1 as [|p ps Hp _ IH]; simpl; [lia|]. rewrite length_app.
  destruct p; [congruence|simpl; lia].
Qed.

Lemma concat_singletons {B} (ps : list (list B)) :
  Forall (fun p => p <> []) ps -> List.length (concat ps) = List.length ps ->
  ps = map (fun x => [x]) (concat ps).
Proof.
  induction 1 as [|p ps Hp Hps IH]; intros Hl; [reflexivity|].
  pose proof (length_concat_ge ps Hps).
  destruct p as [|a p']; [congruence|]. simpl in Hl. rewrite length_app in Hl.
  destruct p' as [|b p'']; simpl in Hl; [|lia].
  simpl. f_equal. apply IH. lia.
Qed.

(** Mode A with at least as many parts as elements: one part per element. *)
Lemma mode_a_singletons xs (k : Z) :
  len xs <= k -> mode_a xs k = map (fun x => [x]) xs.
Proof.
  intros Hk. destruct xs as [|x xs']; [apply mode_a_nil|].
  destruct (mode_a_spec (x :: xs') k ltac:(discriminate)) as (Hl & Hc & _ & _ & _).
  rewrite <- Hc at 2. apply concat_singletons; [apply mode_a_nonempty|].
  rewrite Hc. unfold len in Hk, Hl. cbn [List.length] in *. lia.
Qed.

Lemma Forall_skipn_suffix {B} (P : B -> Prop) (k : nat) (l : list B) :
  Forall P l -> Forall P (skipn k l).
Proof.
  intros H. revert k. induction H as [|x l Hx Hl IH]; intros [|k]; simpl; auto.
Qed.

Lemma product_nonempty fs : Forall (fun f => f <> []) fs -> product fs <> [].
Proof.
  intros H E. pose proof (total_size_pos fs H) as Hp. rewrite <- len_product, E in Hp.
  unfold len in Hp. simpl in Hp. lia.
Qed.

Lemma len_generator (suffix : list (list A)) (p : list (list A)) :
  len (generator suffix p) = len p * total_size suffix.
Proof.
  unfold generator, len.
  rewrite (length_flat_map_const _ (List.length (product suffix))) by (intros; apply length_map).
  rewrite Nat2Z.inj_mul. fold (len (product suffix)). now rewrite len_product.
Qed.

Lemma total_size_app fs1 fs2 : total_size (fs1 ++ fs2) = total_size fs1 * total_size fs2.
Proof.
  unfold total_size. induction fs1 as [|f fs1 IH]; cbn [app fold_right]; [lia|].
  rewrite IH. lia.
Qed.

Lemma flat_map_single {B C} (g : B -> C) (l : list B) :
  flat_map (fun x => [g x]) l = map g l.
Proof. induction l as [|x l IH]; simpl; congruence. Qed.

(** When the product has at most [n] tuples, the prefix that [products]
    materialises spans the whole product. *)
Lemma prefix_index_total fs (n : Z) :
  Forall (fun f => f <> []) fs -> total_size fs <= n ->
  total_size (firstn (prefix_index fs n) fs) = total_size fs.
Proof.
  intros Hne Hn. unfold prefix_index.
  destruct (split_index fs 1 n 0) as [k|] eqn:E.
  - apply split_index_some in E as [Hk Hge]. rewrite Nat.sub_0_r, Z.mul_1_l in Hge.
    rewrite Nat.min_r by lia. pose proof (total_size_firstn fs k Hne). lia.
  - now rewrite firstn_all.
Qed.

End MoreFacts.

Lemma cursor_size_chain {A} (xs : list A) (c : cursor A) :
  cursor_size (chain xs c) = (List.length xs + cursor_size c)%nat.
Proof. induction xs as [|x xs IH]; simpl; congruence. Qed.

(** Case analysis on the first [if] of the goal. *)
Ltac destruct_if := match goal with |- context [if ?b then _ else _] => destruct b end.

(** * Further properties of [parts] and [products] *)
Section Extras.
Context {A : Type}.
Implicit Types (xs : list A) (fs : list (list A)).

(** X1 (Mode B part sizes): with a single integer length [l] and
    [m = max(1, l)], [parts(xs, length=l)] on a sized input raises
    nothing and yields [ceil(len(xs) / m)] parts; every part but the last
    has exactly [m] elements, and every part has between 1 and [m]. *)
Theorem parts_length_int_chunks xs (l : Z) :
  let m := Z.max 1 l in
  let r := parts (Sized xs) None (Some (LInt l)) in
  snd r = None /\
  Z.of_nat (List.length (fst r)) = (len xs + m - 1) / m /\
  (forall (j : nat) p, (S j < List.length (fst r))%nat -> nth_error (fst r) j = Some p -> len p = m) /\
  Forall (fun p => 1 <= len p <= m) (fst r).
Proof.
  cbv zeta. cbn [parts mode_b fst snd].
  set (m := Z.max 1 l). assert (Hm : 1 <= m) by lia.
  rewrite mode_b_sized_range by lia.
  pose proof (len_nonneg xs) as Hlen.
  set (M := (len xs + m - 1) / m).
  pose proof (div_bounds (len xs + m - 1) m ltac:(lia)) as [H1 H2]. fold M in H1, H2.
  assert (HM : 0 <= M) by (apply Z.div_pos; lia).
  destruct (range_slices xs m (Z.to_nat M) (S (List.length xs)) 0 Hm ltac:(lia)
              ltac:(unfold len in *; nia) ltac:(rewrite Z.sub_0_r; nia))
    as (Hl & _ & Hmid & Hlast).
  rewrite Z.sub_0_r in Hlast.
  set (ps := map (fun i => py_slice xs i (i + m)) (range_step (S (List.length xs)) 0 (len xs) m)) in *.
  split; [reflexivity|]. split; [rewrite Hl; lia|]. split.
  - intros j p Hj Hp. apply (Hmid j p); [lia|exact Hp].
  - apply Forall_forall. intros p Hin. apply In_nth_error in Hin as [j Hj].
    assert (Hjl : (j < List.length ps)%nat) by (apply nth_error_Some; congruence).
    destruct (Nat.lt_ge_cases (S j) (List.length ps)) as [Hs|Hs].
    + rewrite (Hmid j p) by (lia || exact Hj). lia.
    + replace j with (Z.to_nat M - 1)%nat in Hj by lia.
      rewrite (Hlast p Hj). rewrite Hl in Hjl. nia.
Qed.

(** X2 (Mode B on a generator): for a length [l] of at most
    [sys.maxsize], on a pull-only input that yields the elements of [xs]
    and then stops, [parts(xs, length=l)] yields the same parts as on the
    list [xs], and raises nothing. *)
Theorem parts_length_int_pull_agrees xs (l : Z) :
  l <= maxsize ->
  parts (Pull (chain xs CStop)) None (Some (LInt l)) = parts (Sized xs) None (Some (LInt l)).
Proof.
  intros Hmax. cbn [parts mode_b]. rewrite cursor_size_chain, Nat.add_0_r.
  assert (Hm : Z.max 1 l <= maxsize) by (unfold maxsize in *; lia).
  exact (mode_b_pull_chain xs (Z.max 1 l) (S (List.length xs)) 0 ltac:(lia) Hm ltac:(lia)).
Qed.

(** X3 (Mode B propagates the input's exception): for a length [l] of
    at most [sys.maxsize], when a pull-only input yields some elements and
    then raises, [parts(xs, length=l)] raises that exception; it never
    swallows it. *)
Theorem parts_length_int_pull_raises xs (l : Z) :
  l <= maxsize ->
  snd (parts (Pull (chain xs CRaise)) None (Some (LInt l))) = Some GeneratorError.
Proof.
  intros Hmax. cbn [parts mode_b]. apply mode_b_pull_raise; [lia|unfold maxsize in *; lia|].
  rewrite cursor_size_chain. lia.
Qed.

(** X4 (Mode C on a generator): for a length iterable whose integer
    entries all lie between 0 and [sys.maxsize], [parts(xs, length=L)] on a
    pull-only input
    that yields the elements of [xs] and then stops behaves exactly as on
    the list [xs]: same parts, same error. *)
Theorem parts_lengths_pull_agrees xs (b : bool) (es : list entry) :
  Forall (fun e => match e with EInt l => 0 <= l <= maxsize | EOther => True end) es ->
  parts (Pull (chain xs CStop)) None (Some (LIterable b es)) =
  parts (Sized xs) None (Some (LIterable b es)).
Proof.
  intros Hes. cbn [parts mode_c].
  exact (mode_c_pull_chain xs es 0 Hes ltac:(lia)).
Qed.

(** X5 (Mode C reads the lengths lazily): appending entries to a length
    iterable never changes the parts already produced for the shorter one;
    and when the shorter one already ends in an error, the longer one gives
    the very same run, whatever is appended. *)
Theorem parts_lengths_prefix (xs : input A) (b : bool) (es1 es2 : list entry) :
  let r1 := parts xs None (Some (LIterable b es1)) in
  let r2 := parts xs None (Some (LIterable b (es1 ++ es2))) in
  (exists rest, fst r2 = fst r1 ++ rest) /\ (snd r1 <> None -> r2 = r1).
Proof.
  cbv zeta. cbn [parts mode_c]. destruct xs as [ys|c].
  - apply mode_c_sized_app.
  - apply mode_c_pull_app.
Qed.

(** X6 (Mode D with an integer length is Mode B plus a check): whenever
    [parts(xs, number=n, length=l)] succeeds on a sized input, it yields
    the same parts as [parts(xs, length=l)]. *)
Theorem parts_number_length_int_as_length xs (n l : Z) ps :
  parts (Sized xs) (Some (NInt n)) (Some (LInt l)) = (ps, None) ->
  parts (Sized xs) None (Some (LInt l)) = (ps, None).
Proof.
  cbn [parts mode_d mode_b]. unfold mode_d_int.
  destruct_if; [discriminate|]. intros H. injection H as <-.
  rewrite mode_b_sized_range by lia. f_equal. f_equal.
  pose proof (len_nonneg xs).
  apply range_step_fuel; unfold len in *; lia.
Qed.

(** X7 (Mode D with a list of positive lengths is Mode C plus checks):
    whenever [parts(xs, number=n, length=L)] succeeds on a sized input and
    every entry of [L] is at least 1, it yields the same parts as
    [parts(xs, length=L)], with [L] given as a list or as any other
    iterable. *)
Theorem parts_number_length_list_as_lengths xs (n : Z) (ls : list Z) (b : bool) ps :
  Forall (fun l => 1 <= l) ls ->
  parts (Sized xs) (Some (NInt n)) (Some (LIterable true (map EInt ls))) = (ps, None) ->
  parts (Sized xs) None (Some (LIterable b (map EInt ls))) = (ps, None).
Proof.
  intros Hpos. cbn [parts mode_d mode_c]. rewrite all_ints_map. unfold mode_d_list.
  destruct_if; [discriminate|].
  destruct (Z.leb_spec (len xs) (sum (removelast ls))) as [_|Hlt]; [discriminate|].
  destruct_if; [discriminate|].
  intros H. injection H as <-. apply mode_c_sized_slices; [exact Hpos|lia|lia].
Qed.

(** X8 (a count makes [parts] validate up front): whenever [number] is
    given, [parts] either raises nothing or raises before yielding any
    part. *)
Theorem parts_number_validates_first (xs : input A) (n : number_arg) (length : option length_arg) :
  let r := parts xs (Some n) length in
  snd r = None \/ fst r = [].
Proof.
  cbv zeta. destruct n as [n|]; [|right; reflexivity].
  destruct length as [[l|[|] es|]|]; cbn [parts mode_d];
    try (destruct xs; [|right; reflexivity]); try (right; reflexivity).
  - cbn [mode_d]. unfold mode_d_int. destruct_if; [right|left]; reflexivity.
  - cbn [mode_d]. destruct (all_ints es) as [ls|]; [|right; reflexivity]. unfold mode_d_list.
    destruct_if; [right; reflexivity|].
    destruct_if; [right; reflexivity|].
    destruct_if; [right|left]; reflexivity.
  - left; reflexivity.
Qed.

(** X9 (Modes A, B and C never yield an empty part): with only a count, or
    only a length (an integer or an iterable of integers), every part that
    [parts] yields, on a sized or a pull-only input, is non-empty. *)
Theorem parts_single_spec_nonempty (xs : input A) (number : option number_arg)
    (length : option length_arg) :
  Forall (fun p => p <> []) (fst (parts xs number None)) /\
  Forall (fun p => p <> []) (fst (parts xs None length)).
Proof.
  split.
  - destruct number as [[n|]|]; cbn [parts fst]; [|constructor..].
    destruct xs as [ys|c]; [apply mode_a_nonempty|constructor].
  - destruct length as [[l|b es|]|]; cbn [parts]; [| |constructor..].
    + unfold mode_b. destruct xs as [ys|c].
      * apply mode_b_sized_nonempty.
      * apply mode_b_pull_nonempty. lia.
    + unfold mode_c. destruct xs as [ys|c].
      * apply mode_c_sized_nonempty.
      * apply mode_c_pull_nonempty.
Qed.

(** X10 (what [products] can raise on collections): when every factor is
    a collection (so the check of line 116 passes), [products] raises only
    on its [number] argument: a non-integer [number], or an integer below
    1; the call to [parts] inside it never raises. *)
Theorem products_errors fs (number : option number_arg) (e : error) :
  products fs number = inl e ->
  (number = Some NOther /\ e = TypeError_products_number) \/
  (exists n, number = Some (NInt n) /\ n < 1 /\ e = ValueError_products_number).
Proof.
  destruct number as [[n|]|].
  - destruct (Z.lt_ge_cases n 2) as [Hn|Hn].
    + unfold products. destruct (Z.ltb_spec n 1) as [H1|H1].
      * intros H. injection H as <-. right. exists n. auto.
      * destruct (Z.eqb_spec n 1); [discriminate|lia].
    + rewrite products_split by exact Hn. discriminate.
  - intros H. injection H as <-. left. auto.
  - discriminate.
Qed.

(** X11 (no empty subset): when every factor is non-empty, every subset
    that [products] returns yields at least one tuple. *)
Theorem products_nonempty_subsets fs (number : option number_arg) ss :
  Forall (fun f => f <> []) fs -> products fs number = inr ss ->
  Forall (fun s => s <> []) ss.
Proof.
  intros Hne.
  assert (Hall : @inr error _ [product fs] = inr ss -> Forall (fun s => s <> []) ss).
  { intros H. injection H as <-. constructor; [|constructor]. now apply product_nonempty. }
  destruct number as [[n|]|]; [|discriminate|exact Hall].
  destruct (Z.lt_ge_cases n 2) as [Hn|Hn].
  - unfold products. destruct (Z.ltb_spec n 1); [discriminate|].
    destruct (Z.eqb_spec n 1); [exact Hall|lia].
  - rewrite products_split by exact Hn. intros H. injection H as <-.
    apply Forall_map. eapply Forall_impl; [|apply mode_a_nonempty].
    intros p Hp. destruct p as [|t p']; [congruence|].
    unfold generator. cbn [flat_map].
    pose proof (product_nonempty (skipn (prefix_index fs n) fs)
                  (Forall_skipn_suffix _ _ _ Hne)) as Hs.
    destruct (product (skipn (prefix_index fs n) fs)); [congruence|discriminate].
Qed.

(** X12 (subset sizes grow by steps of the suffix size): for an integer
    [number], of two subsets returned by [products], the later one has
    the same number of tuples as the earlier one, or more by exactly the
    size of the product of the factors after the split prefix. *)
Theorem products_sizes_sorted fs (n : Z) ss (i j : nat) s s' :
  products fs (Some (NInt n)) = inr ss -> (i <= j)%nat ->
  nth_error ss i = Some s -> nth_error ss j = Some s' ->
  len s' = len s \/ len s' = len s + total_size (skipn (prefix_index fs n) fs).
Proof.
  intros Hp Hij Hs Hs'.
  destruct (Z.lt_ge_cases n 2) as [Hn|Hn].
  - revert Hp. unfold products. destruct (Z.ltb_spec n 1) as [H1|H1]; [discriminate|].
    destruct (Z.eqb_spec n 1) as [H2|H2]; [|lia]. intros Heq. injection Heq as <-.
    destruct i as [|i]; [|destruct i; discriminate].
    destruct j as [|j]; [|destruct j; discriminate].
    rewrite Hs in Hs'. injection Hs' as <-. now left.
  - rewrite products_split in Hp by exact Hn. injection Hp as <-.
    rewrite nth_error_map in Hs, Hs'.
    destruct (nth_error _ i) as [p|] eqn:Hp; [|discriminate]. injection Hs as <-.
    destruct (nth_error _ j) as [p'|] eqn:Hp'; [|discriminate]. injection Hs' as <-.
    rewrite !len_generator.
    destruct (mode_a_nth_sizes _ n i j p p' Hij Hp Hp') as [E|E]; rewrite E; [left|right]; lia.
Qed.

(** X13 (one tuple per subset): when every factor is non-empty and
    [number] is at least the size of the whole product, [products] returns
    one subset per tuple of the product, in the product's order. *)
Theorem products_singletons fs (n : Z) :
  Forall (fun f => f <> []) fs -> total_size fs <= n ->
  products fs (Some (NInt n)) = inr (map (fun t => [t]) (product fs)).
Proof.
  intros Hne Hn. pose proof (total_size_pos fs Hne) as Htot.
  set (index := prefix_index fs n).
  assert (Hpre : total_size (firstn index fs) = total_size fs) by now apply prefix_index_total.
  assert (Hsuf : total_size (skipn index fs) = 1).
  { pose proof (total_size_app (firstn index fs) (skipn index fs)) as E.
    rewrite firstn_skipn, Hpre in E. nia. }
  assert (Hsfx : exists sfx, product (skipn index fs) = [sfx]).
  { pose proof (len_product (skipn index fs)) as E. rewrite Hsuf in E.
    destruct (product (skipn index fs)) as [|sfx [|? ?]]; unfold len in E; simpl in E;
      [lia|eauto|lia]. }
  destruct Hsfx as [sfx Hsfx].
  assert (Hprod : product fs = map (fun p => p ++ sfx) (product (firstn index fs))).
  { rewrite <- (firstn_skipn index fs) at 1. rewrite product_app. unfold generator.
    rewrite Hsfx. cbn [map]. apply flat_map_single. }
  destruct (Z.eq_dec n 1) as [->|Hn1].
  - assert (Hone : exists t, product fs = [t]).
    { pose proof (len_product fs) as E.
      destruct (product fs) as [|t [|? ?]]; unfold len in E; simpl in E; [lia|eauto|lia]. }
    destruct Hone as [t Ht]. unfold products. cbn. now rewrite Ht.
  - rewrite products_split by lia. fold index. f_equal.
    rewrite mode_a_singletons by (rewrite len_product; lia).
    rewrite Hprod, !map_map. apply map_ext. intros t.
    unfold generator. rewrite Hsfx. reflexivity.
Qed.

End Extras.

Lemma parts_length_int_pull_agrees_witness :
  3 <= maxsize /\
  parts (Pull (chain l7 CStop)) None (Some (LInt 3)) = parts (Sized l7) None (Some (LInt 3)).
Proof.
  assert (H : 3 <= maxsize) by (unfold maxsize; lia).
  split; [exact H|]. exact (parts_length_int_pull_agrees l7 3 H).
Defined.

Lemma parts_length_int_pull_raises_witness :
  2 <= maxsize /\
  snd (parts (Pull (chain [1; 2; 3] CRaise)) None (Some (LInt 2))) = Some GeneratorError.
Proof.
  assert (H : 2 <= maxsize) by (unfold maxsize; lia).
  split; [exact H|]. exact (parts_length_int_pull_raises [1; 2; 3] 2 H).
Defined.

Lemma parts_lengths_pull_agrees_witness :
  Forall (fun e => match e with EInt l => 0 <= l <= maxsize | EOther => True end)
    [EInt 2; EInt 2] /\
  parts (Pull (chain l7 CStop)) None (Some (LIterable false [EInt 2; EInt 2])) =
  parts (Sized l7) None (Some (LIterable false [EInt 2; EInt 2])).
Proof.
  assert (H : Forall (fun e => match e with EInt l => 0 <= l <= maxsize | EOther => True end)
                [EInt 2; EInt 2]) by (repeat constructor; unfold maxsize; lia).
  split; [exact H|]. exact (parts_lengths_pull_agrees l7 false _ H).
Defined.

Lemma parts_number_length_int_as_length_witness :
  parts (Sized l7) (Some (NInt 3)) (Some (LInt 3)) = ([[1; 2; 3]; [4; 5; 6]; [7]], None) /\
  parts (Sized l7) None (Some (LInt 3)) = ([[1; 2; 3]; [4; 5; 6]; [7]], None).
Proof.
  assert (H : parts (Sized l7) (Some (NInt 3)) (Some (LInt 3))
              = ([[1; 2; 3]; [4; 5; 6]; [7]], None)) by reflexivity.
  split; [exact H|]. exact (parts_number_length_int_as_length l7 3 3 _ H).
Defined.

Lemma parts_number_length_list_as_lengths_witness :
  Forall (fun l => 1 <= l) [3; 4] /\
  parts (Sized l7) (Some (NInt 2)) (Some (LIterable true (map EInt [3; 4])))
    = ([[1; 2; 3]; [4; 5; 6; 7]], None) /\
  parts (Sized l7) None (Some (LIterable false (map EInt [3; 4])))
    = ([[1; 2; 3]; [4; 5; 6; 7]], None).
Proof.
  assert (Hpos : Forall (fun l => 1 <= l) [3; 4]) by (repeat constructor; lia).
  assert (H : parts (Sized l7) (Some (NInt 2)) (Some (LIterable true (map EInt [3; 4])))
              = ([[1; 2; 3]; [4; 5; 6; 7]], None)) by reflexivity.
  split; [exact Hpos|]. split; [exact H|].
  exact (parts_number_length_list_as_lengths l7 2 [3; 4] false _ Hpos H).
Defined.

Lemma products_errors_witness :
  products [[1; 2]] (Some (NInt 0)) = inl ValueError_products_number /\
  ((Some (NInt 0) = Some NOther /\ ValueError_products_number = TypeError_products_number) \/
   (exists n, Some (NInt 0) = Some (NInt n) /\ n < 1 /\
              ValueError_products_number = ValueError_products_number)).
Proof.
  assert (H : products [[1; 2]] (Some (NInt 0)) = inl ValueError_products_number)
    by reflexivity.
  split; [exact H|]. exact (products_errors [[1; 2]] _ _ H).
Defined.

Lemma products_nonempty_subsets_witness :
  Forall (fun f => f <> []) [[1; 2]; [3]; [4; 5]] /\
  products [[1; 2]; [3]; [4; 5]] (Some (NInt 3)) =
    inr [[[1; 3; 4]]; [[1; 3; 5]]; [[2; 3; 4]; [2; 3; 5]]] /\
  Forall (fun s => s <> []) [[[1; 3; 4]]; [[1; 3; 5]]; [[2; 3; 4]; [2; 3; 5]]].
Proof.
  assert (Hne : Forall (fun f => f <> []) [[1; 2]; [3]; [4; 5]])
    by (repeat constructor; discriminate).
  assert (H : products [[1; 2]; [3]; [4; 5]] (Some (NInt 3)) =
              inr [[[1; 3; 4]]; [[1; 3; 5]]; [[2; 3; 4]; [2; 3; 5]]]) by reflexivity.
  split; [exact Hne|]. split; [exact H|].
  exact (products_nonempty_subsets _ _ _ Hne H).
Defined.

Lemma products_sizes_sorted_witness :
  products [[1; 2; 3]; [4; 5]] (Some (NInt 2)) =
    inr [[[1; 4]; [1; 5]]; [[2; 4]; [2; 5]; [3; 4]; [3; 5]]] /\
  (len [[2; 4]; [2; 5]; [3; 4]; [3; 5]] = len [[1; 4]; [1; 5]] \/
   len [[2; 4]; [2; 5]; [3; 4]; [3; 5]] = len [[1; 4]; [1; 5]]
     + total_size (skipn (prefix_index [[1; 2; 3]; [4; 5]] 2) [[1; 2; 3]; [4; 5]])).
Proof.
  assert (H : products [[1; 2; 3]; [4; 5]] (Some (NInt 2)) =
              inr [[[1; 4]; [1; 5]]; [[2; 4]; [2; 5]; [3; 4]; [3; 5]]]) by reflexivity.
  split; [exact H|].
  exact (products_sizes_sorted _ _ _ 0 1 _ _ H ltac:(lia) eq_refl eq_refl).
Defined.

Lemma products_singletons_witness :
  Forall (fun f => f <> []) [[1; 2]; [3; 4]] /\ total_size [[1; 2]; [3; 4]] <= 5 /\
  products [[1; 2]; [3; 4]] (Some (NInt 5)) = inr [[[1; 3]]; [[1; 4]]; [[2; 3]]; [[2; 4]]].
Proof.
  assert (Hne : Forall (fun f => f <> []) [[1; 2]; [3; 4]]) by (repeat constructor; discriminate).
  assert (Hn : total_size [[1; 2]; [3; 4]] <= 5) by (vm_compute; discriminate).
  split; [exact Hne|]. split; [exact Hn|].
  exact (products_singletons [[1; 2]; [3; 4]] 5 Hne Hn).
Defined.
